(** * gorbac: a role-based access control engine (rbac.go)

    A shallow embedding of the engine of [rbac.go]: the role store, the
    parent graph, the mutation API, the recursive permission resolution and
    the reader/writer lock that brackets every public operation. *)

From stdpp Require Import gmap list relations strings.

#[local] Set Warnings "-clear-no-such-hyp".

(** ** Errors

    [ErrRoleNotExist] and [ErrRoleExist] of rbac.go; Go's [nil] error is
    [None] of [option Error]. *)
Inductive Error := ErrRoleNotExist | ErrRoleExist.

(** ** Roles and permissions

    [Role[K]], [Roles[K]] and [Permission[K]] are declared outside rbac.go.
    The engine uses a role only through its field [ID] and its method
    [Permit], so both types are parameters with exactly that interface. *)
Class RoleLike (K Permission Role : Type) := {
  ID : Role → K;
  Permit : Role → Permission → bool
}.

(** ** Iteration order of Go maps

    [for k := range m] visits every key of [m] once, in an order the
    language leaves open.  Every loop of rbac.go over a map goes through one
    of these two functions, about which only that is known. *)
Class MapRange (K : Type) `{Countable K} := {
  range_set : gset K → list K;
  range_map : gmap K (gset K) → list (K * gset K);
  range_set_perm : ∀ X, range_set X ≡ₚ elements X;
  range_map_perm : ∀ m, range_map m ≡ₚ map_to_list m
}.

(** The order stdpp happens to enumerate in is one admissible order. *)
#[export] Instance elements_range `{Countable K} : MapRange K := {|
  range_set := elements;
  range_map := map_to_list;
  range_set_perm := λ _, reflexivity _;
  range_map_perm := λ _, reflexivity _
|}.

(** That order backwards is another. *)
Definition reversed_range `{Countable K} : MapRange K := {|
  range_set := λ X, rev (elements X);
  range_map := λ m, rev (map_to_list m);
  range_set_perm := λ X, Permutation_sym (Permutation_rev (elements X));
  range_map_perm := λ m, Permutation_sym (Permutation_rev (map_to_list m))
|}.

(** ** sync.RWMutex

    Go's standard library, not part of the repository: any number of readers
    or one writer hold the lock.  An acquisition that would block yields
    [None].  The state records who holds the lock, not who waits for it: a
    writer queued behind readers, which in Go makes later readers wait as
    well, is not represented. *)
Record RWMutex := { writer : bool; readers : nat }.

Definition unlocked : RWMutex := {| writer := false; readers := 0 |}.

Definition mutex_Lock (m : RWMutex) : option RWMutex :=
  if writer m then None
  else match readers m with
       | 0 => Some {| writer := true; readers := 0 |}
       | S _ => None
       end.

Definition mutex_Unlock (m : RWMutex) : RWMutex :=
  {| writer := false; readers := readers m |}.

Definition mutex_RLock (m : RWMutex) : option RWMutex :=
  if writer m then None
  else Some {| writer := false; readers := S (readers m) |}.

Definition mutex_RUnlock (m : RWMutex) : RWMutex :=
  {| writer := writer m; readers := pred (readers m) |}.

(** ** What a call does

    It returns, it blocks on the lock, or its recursion exceeds the stack
    budget it was given. *)
Inductive Outcome (A : Type) :=
  | Returns (a : A)
  | Blocks
  | Overflows.
Arguments Returns {A} a.
Arguments Blocks {A}.
Arguments Overflows {A}.

Section Engine.
Context {K : Type} {EqK : EqDecision K} {CountK : Countable K}.
Context {Permission Role : Type}.
Context {RoleK : RoleLike K Permission Role} {RangeK : MapRange K}.

(** ** The engine: [type RBAC[K]] *)
Record RBAC := {
  mutex : RWMutex;
  roles : gmap K Role;
  parents : gmap K (gset K)
}.

Definition set_mutex (m : RWMutex) (rbac : RBAC) : RBAC :=
  {| mutex := m; roles := roles rbac; parents := parents rbac |}.
Definition set_roles (rs : gmap K Role) (rbac : RBAC) : RBAC :=
  {| mutex := mutex rbac; roles := rs; parents := parents rbac |}.
Definition set_parents (ps : gmap K (gset K)) (rbac : RBAC) : RBAC :=
  {| mutex := mutex rbac; roles := roles rbac; parents := ps |}.

(** [rbac.mutex.Lock()] ... [rbac.mutex.Unlock()] around a body, deferred or
    inline. *)
Definition locked {A} (rbac : RBAC) (body : RBAC → A * RBAC) : Outcome (A * RBAC) :=
  match mutex_Lock (mutex rbac) with
  | None => Blocks
  | Some m =>
    let '(a, rbac') := body (set_mutex m rbac) in
    Returns (a, set_mutex (mutex_Unlock (mutex rbac')) rbac')
  end.

(** [New] *)
Definition New : RBAC := {| mutex := unlocked; roles := ∅; parents := ∅ |}.

(** The first loop of [SetParents]: leave at the first parent that is no
    role. *)
Fixpoint all_exist (rs : gmap K Role) (l : list K) : bool :=
  match l with
  | [] => true
  | parent :: l' =>
    match rs !! parent with
    | None => false
    | Some _ => all_exist rs l'
    end
  end.

(** [if _, ok := rbac.parents[id]; !ok { rbac.parents[id] = make(...) }] *)
Definition ensure_bucket (id : K) (ps : gmap K (gset K)) : gmap K (gset K) :=
  match ps !! id with
  | None => <[id := ∅]> ps
  | Some _ => ps
  end.

(** [rbac.parents[id][parent] = empty]: the bucket is there when this runs. *)
Definition add_edge (id parent : K) (ps : gmap K (gset K)) : gmap K (gset K) :=
  alter (λ bucket, bucket ∪ {[parent]}) id ps.

(** [SetParents] *)
Definition SetParents (rbac : RBAC) (id : K) (parentIDs : list K)
  : Outcome (option Error * RBAC) :=
  locked rbac (λ rbac,
    match roles rbac !! id with
    | None => (Some ErrRoleNotExist, rbac)
    | Some _ =>
      if all_exist (roles rbac) parentIDs then
        let ps := ensure_bucket id (parents rbac) in
        let ps := foldl (λ ps parent, add_edge id parent ps) ps parentIDs in
        (None, set_parents ps rbac)
      else (Some ErrRoleNotExist, rbac)
    end).

(** [for parent := range ids { parents = append(parents, parent) }] *)
Definition collect (ids : gset K) : list K :=
  foldl (λ acc parent, acc ++ [parent]) [] (range_set ids).

(** [GetParents]: it takes the exclusive lock. *)
Definition GetParents (rbac : RBAC) (id : K)
  : Outcome ((list K * option Error) * RBAC) :=
  locked rbac (λ rbac,
    match roles rbac !! id with
    | None => (([], Some ErrRoleNotExist), rbac)
    | Some _ =>
      match parents rbac !! id with
      | None => (([], None), rbac)
      | Some ids => ((collect ids, None), rbac)
      end
    end).

(** [SetParent] *)
Definition SetParent (rbac : RBAC) (id parent : K)
  : Outcome (option Error * RBAC) :=
  locked rbac (λ rbac,
    match roles rbac !! id with
    | None => (Some ErrRoleNotExist, rbac)
    | Some _ =>
      match roles rbac !! parent with
      | None => (Some ErrRoleNotExist, rbac)
      | Some _ =>
        let ps := ensure_bucket id (parents rbac) in
        (None, set_parents (add_edge id parent ps) rbac)
      end
    end).

(** [delete(rbac.parents[id], parent)]: nothing happens without a bucket. *)
Definition del_edge (id parent : K) (ps : gmap K (gset K)) : gmap K (gset K) :=
  alter (λ bucket, bucket ∖ {[parent]}) id ps.

(** [RemoveParent] *)
Definition RemoveParent (rbac : RBAC) (id parent : K)
  : Outcome (option Error * RBAC) :=
  locked rbac (λ rbac,
    match roles rbac !! id with
    | None => (Some ErrRoleNotExist, rbac)
    | Some _ =>
      match roles rbac !! parent with
      | None => (Some ErrRoleNotExist, rbac)
      | Some _ => (None, set_parents (del_edge id parent (parents rbac)) rbac)
      end
    end).

(** [Add] *)
Definition Add (rbac : RBAC) (r : Role) : Outcome (option Error * RBAC) :=
  locked rbac (λ rbac,
    match roles rbac !! ID r with
    | None => (None, set_roles (<[ID r := r]> (roles rbac)) rbac)
    | Some _ => (Some ErrRoleExist, rbac)
    end).

(** The inner loop of [Remove] over one bucket: at the first parent equal
    to [id], delete it from the bucket of [rid] and break. *)
Fixpoint scrub (id rid : K) (l : list K) (ps : gmap K (gset K)) : gmap K (gset K) :=
  match l with
  | [] => ps
  | parent :: l' =>
    if decide (parent = id) then del_edge rid id ps
    else scrub id rid l' ps
  end.

(** One round of the outer loop of [Remove]. *)
Definition scrub_entry (id : K) (ps : gmap K (gset K)) (e : K * gset K)
  : gmap K (gset K) :=
  if decide (e.1 = id) then delete e.1 ps
  else scrub id e.1 (range_set e.2) ps.

(** [Remove] *)
Definition Remove (rbac : RBAC) (id : K) : Outcome (option Error * RBAC) :=
  locked rbac (λ rbac,
    match roles rbac !! id with
    | Some _ =>
      let rbac := set_roles (delete id (roles rbac)) rbac in
      let ps := foldl (scrub_entry id) (parents rbac) (range_map (parents rbac)) in
      (None, set_parents ps rbac)
    | None => (Some ErrRoleNotExist, rbac)
    end).

(** [rbac.mutex.RLock()] ... [rbac.mutex.RUnlock()] around a body that may
    overflow the stack. *)
Definition rlocked {A} (rbac : RBAC) (body : RBAC → Outcome A) : Outcome (A * RBAC) :=
  match mutex_RLock (mutex rbac) with
  | None => Blocks
  | Some m =>
    let rbac := set_mutex m rbac in
    match body rbac with
    | Returns a => Returns (a, set_mutex (mutex_RUnlock (mutex rbac)) rbac)
    | Blocks => Blocks
    | Overflows => Overflows
    end
  end.

(** [Get]: ranging over the bucket of a role that has none visits nothing. *)
Definition Get (rbac : RBAC) (id : K)
  : Outcome ((option Role * list K * option Error) * RBAC) :=
  rlocked rbac (λ rbac,
    match roles rbac !! id with
    | Some r => Returns (Some r, collect (default ∅ (parents rbac !! id)), None)
    | None => Returns (None, [], Some ErrRoleNotExist)
    end).

(** The loop of [recursionCheck] over the parents, [call] being the
    recursive call. *)
Fixpoint check_parents (rs : gmap K Role) (call : K → Outcome bool) (l : list K)
  : Outcome bool :=
  match l with
  | [] => Returns false
  | pID :: l' =>
    match rs !! pID with
    | Some _ =>
      match call pID with
      | Returns true => Returns true
      | Returns false => check_parents rs call l'
      | Blocks => Blocks
      | Overflows => Overflows
      end
    | None => check_parents rs call l'
    end
  end.

(** [recursionCheck].  Go recurses without a bound; [depth] is the number of
    nested calls the stack still has room for, and a call that needs one
    more overflows. *)
Fixpoint recursionCheck (depth : nat) (rbac : RBAC) (id : K) (p : Permission)
  : Outcome bool :=
  match roles rbac !! id with
  | Some role =>
    if Permit role p then Returns true
    else
      match parents rbac !! id with
      | Some ps =>
        check_parents (roles rbac)
          (λ pID, match depth with
                  | 0 => Overflows
                  | S d => recursionCheck d rbac pID p
                  end)
          (range_set ps)
      | None => Returns false
      end
  | None => Returns false
  end.

(** The recursive call of [recursionCheck] from a frame that has [depth]
    calls left. *)
Definition descend (depth : nat) (rbac : RBAC) (p : Permission) (pID : K)
  : Outcome bool :=
  match depth with
  | 0 => Overflows
  | S d => recursionCheck d rbac pID p
  end.

(** [AssertionFunc]: a closure over the caller's own state [H], which it may
    change each time it is called. *)
Definition AssertionFunc (H : Type) : Type :=
  RBAC → K → Permission → H → bool * H.

(** [isGranted]; [assert] is [None] for Go's nil hook. *)
Definition isGranted {H} (depth : nat) (rbac : RBAC) (id : K) (p : Permission)
    (assert : option (AssertionFunc H)) (h : H) : Outcome (bool * H) :=
  match assert with
  | Some f =>
    let '(ok, h') := f rbac id p h in
    if ok then
      match recursionCheck depth rbac id p with
      | Returns b => Returns (b, h')
      | Blocks => Blocks
      | Overflows => Overflows
      end
    else Returns (false, h')
  | None =>
    match recursionCheck depth rbac id p with
    | Returns b => Returns (b, h)
    | Blocks => Blocks
    | Overflows => Overflows
    end
  end.

(** [IsGranted] *)
Definition IsGranted {H} (depth : nat) (rbac : RBAC) (id : K) (p : Permission)
    (assert : option (AssertionFunc H)) (h : H) : Outcome ((bool * H) * RBAC) :=
  rlocked rbac (λ rbac, isGranted depth rbac id p assert h).

(** The structural mutations of the API, as one call. *)
Inductive Mutation :=
  | CallAdd (r : Role)
  | CallRemove (id : K)
  | CallSetParents (id : K) (parentIDs : list K)
  | CallSetParent (id parent : K)
  | CallRemoveParent (id parent : K).

Definition mutate (rbac : RBAC) (c : Mutation) : Outcome (option Error * RBAC) :=
  match c with
  | CallAdd r => Add rbac r
  | CallRemove id => Remove rbac id
  | CallSetParents id parentIDs => SetParents rbac id parentIDs
  | CallSetParent id parent => SetParent rbac id parent
  | CallRemoveParent id parent => RemoveParent rbac id parent
  end.

(** ** Vocabulary of the specification *)

(** An inheritance edge the resolution follows: from a role of the store to
    a member of its parent set that is a role of the store as well. *)
Definition parent_edge (rbac : RBAC) (a b : K) : Prop :=
  is_Some (roles rbac !! a) ∧ is_Some (roles rbac !! b) ∧
  ∃ ps, parents rbac !! a = Some ps ∧ b ∈ ps.

Definition directly_grants (rbac : RBAC) (id : K) (p : Permission) : Prop :=
  ∃ role, roles rbac !! id = Some role ∧ Permit role p = true.

(** Some role reached from [id] over zero or more edges grants [p]. *)
Definition inherits (rbac : RBAC) (id : K) (p : Permission) : Prop :=
  ∃ r, rtc (parent_edge rbac) id r ∧ directly_grants rbac r p.

(** No role reached from [id] lies on a cycle of edges. *)
Definition acyclic_from (rbac : RBAC) (id : K) : Prop :=
  ∀ x, rtc (parent_edge rbac) id x → ¬ tc (parent_edge rbac) x x.

(** Every identifier of the parent graph, owner of a bucket or member of
    one, is a role of the store. *)
Definition graph_closed (rbac : RBAC) : Prop :=
  ∀ k ps, parents rbac !! k = Some ps →
    is_Some (roles rbac !! k) ∧ ∀ x, x ∈ ps → is_Some (roles rbac !! x).

(** [rbac1] holds nothing that [rbac2] does not hold: every role of the
    first is that role of the second, and every bucket of the first lies
    within the bucket of the second. *)
Definition subgraph (rbac1 rbac2 : RBAC) : Prop :=
  (∀ k r, roles rbac1 !! k = Some r → roles rbac2 !! k = Some r) ∧
  (∀ k ps, parents rbac1 !! k = Some ps →
     ∃ ps', parents rbac2 !! k = Some ps' ∧ ps ⊆ ps').

(** The mutations that only add to the engine, and those among them that
    add parent edges. *)
Definition grows (c : Mutation) : bool :=
  match c with
  | CallAdd _ | CallSetParents _ _ | CallSetParent _ _ => true
  | CallRemove _ | CallRemoveParent _ _ => false
  end.

Definition sets_parents (c : Mutation) : bool :=
  match c with
  | CallSetParents _ _ | CallSetParent _ _ => true
  | CallAdd _ | CallRemove _ | CallRemoveParent _ _ => false
  end.

(** The engine as a reader sees it while it holds the shared lock. *)
Definition read_locked (rbac : RBAC) : RBAC :=
  set_mutex {| writer := false; readers := S (readers (mutex rbac)) |} rbac.

(** A hook that also counts how often it is called. *)
Definition counted {H} (f : AssertionFunc H) : AssertionFunc (H * nat) :=
  λ rbac id p hn, let '(ok, h') := f rbac id p hn.1 in (ok, (h', S hn.2)).

(** The states of an engine: [New], and whatever a public operation returns
    from one of them. *)
Inductive reachable : RBAC → Prop :=
  | reach_New : reachable New
  | reach_mutate rbac c e rbac' :
      reachable rbac → mutate rbac c = Returns (e, rbac') → reachable rbac'
  | reach_Get rbac id r rbac' :
      reachable rbac → Get rbac id = Returns (r, rbac') → reachable rbac'
  | reach_GetParents rbac id r rbac' :
      reachable rbac → GetParents rbac id = Returns (r, rbac') → reachable rbac'
  | reach_IsGranted {H} rbac depth id p (assert : option (AssertionFunc H)) h r rbac' :
      reachable rbac → IsGranted depth rbac id p assert h = Returns (r, rbac') →
      reachable rbac'.

End Engine.
Arguments RBAC K {_ _} Role.
Arguments Mutation K Role : clear implicits.
Arguments AssertionFunc K {_ _} Permission Role H.

(** ** The scenario of the specification

    Roles with a list of permissions; [admin] grants [delete], [editor]
    grants [edit] and has [admin] as its parent. *)
Module Scenario.

Record StdRole := { role_id : string; permissions : list string }.

#[export] Instance StdRole_like : RoleLike string string StdRole := {|
  ID := role_id;
  Permit := λ r p, bool_decide (p ∈ permissions r)
|}.

Definition admin : StdRole := {| role_id := "admin"; permissions := ["delete"] |}.
Definition editor : StdRole := {| role_id := "editor"; permissions := ["edit"] |}.

(** Another definition under the id of [admin]. *)
Definition renamed : StdRole := {| role_id := "admin"; permissions := [] |}.

Definition two_roles : RBAC string StdRole :=
  {| mutex := unlocked;
     roles := {[ "admin" := admin; "editor" := editor ]};
     parents := ∅ |}.

Definition engine : RBAC string StdRole :=
  {| mutex := unlocked;
     roles := {[ "admin" := admin; "editor" := editor ]};
     parents := {[ "editor" := {[ "admin" ]} ]} |}.

(** [editor] and [admin] made parents of each other. *)
Definition looping : RBAC string StdRole :=
  {| mutex := unlocked;
     roles := {[ "admin" := admin; "editor" := editor ]};
     parents := {[ "editor" := {[ "admin" ]}; "admin" := {[ "editor" ]} ]} |}.

(** Diamond inheritance: [a] has the parents [b] and [c], and of the two
    only [b] grants [p]. *)
Definition diamond : RBAC string StdRole :=
  {| mutex := unlocked;
     roles := {[ "a" := {| role_id := "a"; permissions := [] |};
                 "b" := {| role_id := "b"; permissions := ["p"] |};
                 "c" := {| role_id := "c"; permissions := [] |} ]};
     parents := {[ "a" := {[ "b"; "c" ]} ]} |}.

(** A third role, not in any of the engines above. *)
Definition viewer : StdRole := {| role_id := "viewer"; permissions := ["view"] |}.

(** [engine] after [RemoveParent] of its one edge: the bucket stays, empty. *)
Definition unlinked : RBAC string StdRole :=
  {| mutex := unlocked;
     roles := {[ "admin" := admin; "editor" := editor ]};
     parents := {[ "editor" := ∅ ]} |}.

(** A hook that lets everything through and keeps no state. *)
Definition allow : AssertionFunc string string StdRole unit :=
  λ _ _ _ h, (true, h).

(** A hook that vetoes everything. *)
Definition veto : AssertionFunc string string StdRole unit :=
  λ _ _ _ h, (false, h).

End Scenario.

(** * Properties *)

Section Properties.
Context {K : Type} {EqK : EqDecision K} {CountK : Countable K}.
Context {Permission Role : Type}.
Context {RoleK : RoleLike K Permission Role} {RangeK : MapRange K}.
Implicit Types (rbac : RBAC K Role) (id parent : K) (p : Permission).

(** ** The lock *)

Lemma locked_inv {A} rbac (body : RBAC K Role → A * RBAC K Role) a rbac' :
  locked rbac body = Returns (a, rbac') →
  mutex rbac = unlocked.
Proof.
  unfold locked, mutex_Lock. destruct rbac as [[w n] rs ps]; simpl.
  destruct w; [done|]. destruct n; [done|]. done.
Qed.

Lemma rlocked_returns {A} rbac (body : RBAC K Role → Outcome A) :
  writer (mutex rbac) = false →
  rlocked rbac body =
    match body (read_locked rbac) with
    | Returns a => Returns (a, rbac)
    | Blocks => Blocks
    | Overflows => Overflows
    end.
Proof.
  intros Hw. unfold rlocked, read_locked, mutex_RLock. rewrite Hw.
  destruct (body _); try done.
  destruct rbac as [[w n] rs ps]; simpl in *. by subst.
Qed.

(** ** Loops in closed form *)

Lemma foldl_snoc {A} (l acc : list A) :
  foldl (λ acc x, acc ++ [x]) acc l = acc ++ l.
Proof.
  revert acc. induction l as [|x l IH]; intros acc; simpl.
  - by rewrite app_nil_r.
  - rewrite IH. by rewrite <- app_assoc.
Qed.

Lemma collect_range (ids : gset K) : collect ids = range_set ids.
Proof. unfold collect. by rewrite foldl_snoc. Qed.

Lemma elem_of_range_set (ids : gset K) x : x ∈ range_set ids ↔ x ∈ ids.
Proof. by rewrite range_set_perm, elem_of_elements. Qed.

Lemma all_exist_Forall (rs : gmap K Role) l :
  all_exist rs l = true ↔ Forall (λ x, is_Some (rs !! x)) l.
Proof.
  induction l as [|x l IH]; simpl.
  - split; [constructor|done].
  - rewrite Forall_cons. destruct (rs !! x) eqn:Hx.
    + rewrite IH. split; [by intros ?|by intros [_ ?]].
    + split; [done|]. intros [[? ?] _]. done.
Qed.

Lemma ensure_bucket_lookup id (ps : gmap K (gset K)) k :
  ensure_bucket id ps !! k =
    if decide (k = id) then Some (default ∅ (ps !! id)) else ps !! k.
Proof.
  unfold ensure_bucket. destruct (ps !! id) eqn:Hid; case_decide; subst; simpl.
  - done.
  - done.
  - by rewrite lookup_insert_eq.
  - by rewrite lookup_insert_ne.
Qed.

Lemma add_edges_insert id l (ps : gmap K (gset K)) bucket :
  ps !! id = Some bucket →
  foldl (λ ps parent, add_edge id parent ps) ps l = <[id := bucket ∪ list_to_set l]> ps.
Proof.
  revert ps bucket. induction l as [|x l IH]; intros ps bucket Hb; simpl.
  - rewrite (right_id_L ∅ (∪)). by rewrite insert_id.
  - rewrite (IH _ (bucket ∪ {[x]})).
    + unfold add_edge. apply map_eq. intros k.
      destruct (decide (k = id)) as [->|Hne].
      * rewrite !lookup_insert_eq. f_equal. set_solver.
      * rewrite !lookup_insert_ne by done. by rewrite lookup_alter_ne.
    + unfold add_edge. by rewrite lookup_alter_eq, Hb.
Qed.

Lemma set_parents_id rbac : set_parents (parents rbac) rbac = rbac.
Proof. by destruct rbac. Qed.

Lemma scrub_found id rid l (ps : gmap K (gset K)) :
  scrub id rid l ps = if decide (id ∈ l) then del_edge rid id ps else ps.
Proof.
  induction l as [|x l IH].
  - destruct (decide (id ∈ [])) as [Hin|Hin]; [|done]. by apply not_elem_of_nil in Hin.
  - destruct (decide (id ∈ x :: l)) as [Hin|Hin]; simpl.
    + destruct (decide (x = id)) as [->|Hne]; [done|]. rewrite IH.
      rewrite decide_True; [done|]. apply elem_of_cons in Hin as [->|?]; done.
    + rewrite not_elem_of_cons in Hin. destruct Hin as [Hne Hin].
      rewrite decide_False by done. rewrite IH. by rewrite decide_False.
Qed.

Lemma scrub_entry_lookup id (ps : gmap K (gset K)) rid bucket k :
  ps !! rid = Some bucket →
  scrub_entry id ps (rid, bucket) !! k =
    if decide (k = rid)
    then (if decide (rid = id) then None else Some (bucket ∖ {[id]}))
    else ps !! k.
Proof.
  intros Hb. unfold scrub_entry. simpl.
  destruct (decide (rid = id)) as [->|Hne].
  - destruct (decide (k = id)) as [->|Hk].
    + by rewrite lookup_delete_eq.
    + by rewrite lookup_delete_ne.
  - rewrite scrub_found. unfold del_edge.
    destruct (decide (id ∈ range_set bucket)) as [Hin|Hin].
    + destruct (decide (k = rid)) as [->|Hk].
      * by rewrite lookup_alter_eq, Hb.
      * by rewrite lookup_alter_ne.
    + destruct (decide (k = rid)) as [->|Hk]; [|done].
      rewrite Hb. f_equal. rewrite elem_of_range_set in Hin. set_solver.
Qed.

Lemma scrub_all_lookup id l (ps : gmap K (gset K)) k :
  NoDup l.*1 →
  (∀ rid bucket, (rid, bucket) ∈ l → ps !! rid = Some bucket) →
  foldl (scrub_entry id) ps l !! k =
    if decide (k ∈ l.*1)
    then (if decide (k = id) then None else (λ b, b ∖ {[id]}) <$> ps !! k)
    else ps !! k.
Proof.
  revert ps. induction l as [|[rid bucket] l IH]; intros ps Hnd Hl.
  - destruct (decide (k ∈ [].*1)) as [Hin|Hin]; [|done]. by apply not_elem_of_nil in Hin.
  - rewrite fmap_cons in Hnd. apply NoDup_cons in Hnd as [Hrid Hnd].
    assert (ps !! rid = Some bucket) as Hb by (apply Hl, elem_of_cons; by left).
    rewrite fmap_cons. cbn [foldl fst]. rewrite IH; [|done|].
    + destruct (decide (k ∈ l.*1)) as [Hk|Hk].
      * assert (k ≠ rid) as Hne by (intros ->; done).
        rewrite (decide_True (P:=k ∈ rid :: l.*1)) by (apply elem_of_cons; by right).
        rewrite (scrub_entry_lookup _ _ _ _ _ Hb). by rewrite (decide_False (P:=k = rid)).
      * rewrite (scrub_entry_lookup _ _ _ _ _ Hb).
        destruct (decide (k = rid)) as [->|Hne].
        -- rewrite (decide_True (P:=rid ∈ rid :: l.*1)) by (apply elem_of_cons; by left).
           rewrite Hb. simpl. by destruct (decide (rid = id)).
        -- rewrite (decide_False (P:=k ∈ rid :: l.*1)); [done|].
           rewrite elem_of_cons. by intros [?|?].
    + intros rid' bucket' Hin.
      assert (rid' ≠ rid) as Hne.
      { intros ->. apply Hrid. apply list_elem_of_fmap. by exists (rid, bucket'). }
      rewrite (scrub_entry_lookup _ _ _ _ _ Hb). rewrite decide_False by done.
      apply Hl, elem_of_cons. by right.
Qed.

Lemma scrub_all_closed id (ps : gmap K (gset K)) :
  foldl (scrub_entry id) ps (range_map ps) = (λ b, b ∖ {[id]}) <$> delete id ps.
Proof.
  apply map_eq. intros k. rewrite scrub_all_lookup.
  - rewrite lookup_fmap.
    destruct (decide (k ∈ (range_map ps).*1)) as [Hk|Hk].
    + destruct (decide (k = id)) as [->|Hne].
      * by rewrite lookup_delete_eq.
      * by rewrite lookup_delete_ne.
    + assert (ps !! k = None) as Hnone.
      { destruct (ps !! k) as [b|] eqn:Hb; [|done]. exfalso. apply Hk.
        apply list_elem_of_fmap. exists (k, b). split; [done|].
        rewrite range_map_perm. by apply elem_of_map_to_list. }
      rewrite Hnone. destruct (decide (k = id)) as [->|Hne].
      * by rewrite lookup_delete_eq.
      * by rewrite lookup_delete_ne, Hnone.
  - rewrite range_map_perm. apply NoDup_fst_map_to_list.
  - intros rid bucket. rewrite range_map_perm. by rewrite elem_of_map_to_list.
Qed.

(** ** The recursion of [recursionCheck] *)

Lemma recursionCheck_unfold depth rbac id p :
  recursionCheck depth rbac id p =
    match roles rbac !! id with
    | Some role =>
      if Permit role p then Returns true
      else
        match parents rbac !! id with
        | Some ps => check_parents (roles rbac) (descend depth rbac p) (range_set ps)
        | None => Returns false
        end
    | None => Returns false
    end.
Proof. by destruct depth. Qed.

Lemma check_parents_true (rs : gmap K Role) call l :
  check_parents rs call l = Returns true →
  ∃ x, x ∈ l ∧ is_Some (rs !! x) ∧ call x = Returns true.
Proof.
  induction l as [|x l IH]; simpl; [done|].
  destruct (rs !! x) as [r|] eqn:Hx.
  - destruct (call x) as [[]| |] eqn:Hc; try done.
    + intros _. exists x. rewrite Hx. split_and!; [apply elem_of_cons|..]; eauto.
    + intros (y & ? & ? & ?)%IH. exists y. split_and!; [apply elem_of_cons|..]; eauto.
  - intros (y & ? & ? & ?)%IH. exists y. split_and!; [apply elem_of_cons|..]; eauto.
Qed.

Lemma check_parents_false (rs : gmap K Role) call l x :
  check_parents rs call l = Returns false →
  x ∈ l → is_Some (rs !! x) → call x = Returns false.
Proof.
  induction l as [|y l IH]; simpl; intros Hf Hin Hx.
  - by apply elem_of_nil in Hin.
  - apply elem_of_cons in Hin as [->|Hin].
    + destruct Hx as [r Hx]. rewrite Hx in Hf.
      by destruct (call y) as [[]| |].
    + apply IH; [|done..]. destruct (rs !! y); [|done].
      by destruct (call y) as [[]| |].
Qed.

Lemma check_parents_returns (rs : gmap K Role) call l :
  (∀ x, x ∈ l → is_Some (rs !! x) → ∃ b, call x = Returns b) →
  ∃ b, check_parents rs call l = Returns b.
Proof.
  induction l as [|y l IH]; simpl; intros Hcall; [eauto|].
  assert (∃ b, check_parents rs call l = Returns b) as Hrest.
  { apply IH. intros x Hin. apply Hcall, elem_of_cons. by right. }
  destruct (rs !! y) as [r|] eqn:Hy; [|done].
  destruct (Hcall y) as [[] ->]; [apply elem_of_cons; by left|by rewrite Hy|eauto|done].
Qed.

Lemma check_parents_ext (rs : gmap K Role) call call' l :
  (∀ x, call x = call' x) → check_parents rs call l = check_parents rs call' l.
Proof.
  intros Hext. induction l as [|y l IH]; simpl; [done|]. by rewrite Hext, IH.
Qed.

Lemma check_parents_not_blocks (rs : gmap K Role) call l :
  (∀ x, call x ≠ Blocks) → check_parents rs call l ≠ Blocks.
Proof.
  intros Hcall. induction l as [|y l IH]; simpl; [done|].
  destruct (rs !! y); [|done]. specialize (Hcall y).
  by destruct (call y) as [[]| |].
Qed.

Lemma recursionCheck_not_blocks depth rbac id p :
  recursionCheck depth rbac id p ≠ Blocks.
Proof.
  revert id. induction depth as [|d IH]; intros id; rewrite recursionCheck_unfold.
  all: destruct (roles rbac !! id) as [role|]; [|done].
  all: destruct (Permit role p); [done|].
  all: destruct (parents rbac !! id); [|done].
  all: apply check_parents_not_blocks; intros x; simpl; done.
Qed.

(** The lock is no part of what the recursion reads. *)
Lemma recursionCheck_set_mutex m depth rbac id p :
  recursionCheck depth (set_mutex m rbac) id p = recursionCheck depth rbac id p.
Proof.
  revert id. induction depth as [|d IH]; intros id; rewrite !recursionCheck_unfold; simpl.
  all: destruct (roles rbac !! id) as [role|]; [|done].
  all: destruct (Permit role p); [done|].
  all: destruct (parents rbac !! id); [|done].
  all: apply check_parents_ext; intros x; simpl; done.
Qed.

Lemma recursionCheck_granted depth rbac id p :
  directly_grants rbac id p → recursionCheck depth rbac id p = Returns true.
Proof. intros (role & Hid & Hp). by rewrite recursionCheck_unfold, Hid, Hp. Qed.

Lemma recursionCheck_absent depth rbac id p :
  roles rbac !! id = None → recursionCheck depth rbac id p = Returns false.
Proof. intros Hid. by rewrite recursionCheck_unfold, Hid. Qed.

Lemma recursionCheck_true depth rbac id p :
  recursionCheck depth rbac id p = Returns true → inherits rbac id p.
Proof.
  revert id. induction depth as [|d IH]; intros id; rewrite recursionCheck_unfold.
  all: destruct (roles rbac !! id) as [role|] eqn:Hid; [|done].
  all: destruct (Permit role p) eqn:Hp;
    [intros _; exists id; split; [constructor|by exists role]|].
  all: destruct (parents rbac !! id) as [ps|] eqn:Hps; [|done].
  all: intros (x & Hx & Hxr & Hcall)%check_parents_true; try done.
  apply IH in Hcall as (r & Hr & Hg). exists r. split; [|done].
  eapply rtc_l; [|done]. split_and!; [eauto|done|].
  exists ps. split; [done|]. by apply elem_of_range_set.
Qed.

Lemma recursionCheck_false_step depth rbac id p y :
  recursionCheck depth rbac id p = Returns false →
  parent_edge rbac id y →
  ∃ d, depth = S d ∧ recursionCheck d rbac y p = Returns false.
Proof.
  rewrite recursionCheck_unfold. intros Hf ([role Hid] & Hy & ps & Hps & Hin).
  rewrite Hid in Hf. destruct (Permit role p); [done|]. rewrite Hps in Hf.
  eapply check_parents_false in Hf; [|by apply elem_of_range_set|done].
  destruct depth as [|d]; [done|]. eauto.
Qed.

Lemma recursionCheck_false_not_granted depth rbac id p :
  recursionCheck depth rbac id p = Returns false → ¬ directly_grants rbac id p.
Proof.
  rewrite recursionCheck_unfold. intros Hf (role & Hid & Hp).
  by rewrite Hid, Hp in Hf.
Qed.

Lemma recursionCheck_false depth rbac id p :
  recursionCheck depth rbac id p = Returns false → ¬ inherits rbac id p.
Proof.
  revert id. induction depth as [|d IH]; intros id Hf (r & Hr & Hg).
  all: apply rtc_inv in Hr as [->|(y & Hedge & Hr)];
    [by eapply recursionCheck_false_not_granted|].
  all: destruct (recursionCheck_false_step _ _ _ _ _ Hf Hedge) as (d' & Hd & Hf');
    try done.
  injection Hd as <-. eapply IH; [done|]. by exists r.
Qed.

Lemma tc_first (R : relation K) x z : tc R x z → ∃ y, R x y ∧ rtc R y z.
Proof.
  destruct 1 as [x z Hxz|x y z Hxy Hyz].
  - exists z. split; [done|constructor].
  - exists y. split; [done|by apply tc_rtc].
Qed.

(** A search that comes back empty-handed has walked everything reachable,
    so nothing reachable lies on a cycle. *)
Lemma recursionCheck_false_acyclic depth rbac id p :
  recursionCheck depth rbac id p = Returns false → acyclic_from rbac id.
Proof.
  revert id. induction depth as [|d IH]; intros id Hf x Hr Hc.
  all: assert (∃ y, parent_edge rbac id y ∧ rtc (parent_edge rbac) y x)
    as (y & Hedge & Hr')
    by (apply rtc_inv in Hr as [->|?]; [by apply tc_first|done]).
  all: destruct (recursionCheck_false_step _ _ _ _ _ Hf Hedge) as (d' & Hd & Hf');
    try done.
  injection Hd as <-. by apply (IH y Hf' x).
Qed.

Lemma size_visit (D V : gset K) id n :
  id ∈ D → id ∉ V → size (D ∖ V) ≤ S n → size (D ∖ (V ∪ {[id]})) ≤ n.
Proof.
  intros HD HV Hsize.
  assert (D ∖ (V ∪ {[id]}) = (D ∖ V) ∖ {[id]}) as -> by set_solver.
  rewrite size_difference by set_solver. rewrite size_singleton. lia.
Qed.

(** On an acyclic graph every nested call leaves one more role behind it:
    [V] are the roles of the frames below, all of them strict descendants of
    [id]. *)
Lemma recursionCheck_returns depth rbac id p (V : gset K) :
  acyclic_from rbac id →
  (∀ v, v ∈ V → tc (parent_edge rbac) v id) →
  size (dom (roles rbac) ∖ V) ≤ S depth →
  ∃ b, recursionCheck depth rbac id p = Returns b.
Proof.
  revert id V. induction depth as [|d IH]; intros id V Hac HV Hsize.
  all: rewrite recursionCheck_unfold.
  all: destruct (roles rbac !! id) as [role|] eqn:Hid; [|eauto].
  all: destruct (Permit role p); [eauto|].
  all: destruct (parents rbac !! id) as [ps|] eqn:Hps; [|eauto].
  all: apply check_parents_returns; intros x Hx%elem_of_range_set Hxr.
  all: assert (parent_edge rbac id x) as Hedge by (split_and!; eauto).
  all: assert (id ∉ V) as HidV
    by (intros Hin; apply (Hac id); [constructor|by apply HV]).
  all: assert (x ∉ V) as HxV
    by (intros Hin; apply (Hac id); [constructor|];
        eapply tc_l; [exact Hedge|by apply HV]).
  all: assert (x ≠ id) as Hne
    by (intros ->; apply (Hac id); [constructor|by apply tc_once]).
  - exfalso.
    assert (size (dom (roles rbac) ∖ (V ∪ {[id]})) ≤ 0) as Hle
      by (apply size_visit; [apply elem_of_dom; eauto|done..]).
    assert (size ({[x]} : gset K) ≤ size (dom (roles rbac) ∖ (V ∪ {[id]}))) as Hx1.
    { apply subseteq_size. apply singleton_subseteq_l.
      apply elem_of_difference. split; [by apply elem_of_dom|set_solver]. }
    rewrite size_singleton in Hx1. lia.
  - simpl. apply (IH x (V ∪ {[id]})).
    + intros z Hz. apply Hac. eapply rtc_l; [exact Hedge|done].
    + intros v [Hv|Hv%elem_of_singleton]%elem_of_union.
      * eapply tc_r; [by apply HV|done].
      * subst v. by apply tc_once.
    + apply size_visit; [apply elem_of_dom; eauto|done..].
Qed.

(** On a graph with a reachable cycle, a search for a permission nobody
    grants never comes back. *)
Lemma recursionCheck_overflows depth rbac id p :
  ¬ acyclic_from rbac id → ¬ inherits rbac id p →
  recursionCheck depth rbac id p = Overflows.
Proof.
  intros Hcyc Hno. destruct (recursionCheck depth rbac id p) as [[]| |] eqn:Hr.
  - by apply recursionCheck_true in Hr.
  - by apply recursionCheck_false_acyclic in Hr.
  - by apply recursionCheck_not_blocks in Hr.
  - done.
Qed.

(** ** Each operation on an engine nobody holds *)

Ltac run_locked rbac Hm :=
  let m := fresh "m" in let rs := fresh "rs" in let ps := fresh "ps" in
  destruct rbac as [m rs ps]; simpl in Hm; subst m;
  unfold locked, set_parents, set_roles, set_mutex; simpl.

Lemma Add_unlocked rbac r :
  mutex rbac = unlocked →
  Add rbac r =
    match roles rbac !! ID r with
    | None => Returns (None, set_roles (<[ID r := r]> (roles rbac)) rbac)
    | Some _ => Returns (Some ErrRoleExist, rbac)
    end.
Proof. intros Hm. unfold Add. run_locked rbac Hm. by destruct (rs !! ID r). Qed.

Lemma SetParents_unlocked rbac id parentIDs :
  mutex rbac = unlocked →
  SetParents rbac id parentIDs =
    if decide (is_Some (roles rbac !! id) ∧
               Forall (λ x, is_Some (roles rbac !! x)) parentIDs)
    then Returns (None, set_parents
           (<[id := default ∅ (parents rbac !! id) ∪ list_to_set parentIDs]>
              (parents rbac)) rbac)
    else Returns (Some ErrRoleNotExist, rbac).
Proof.
  intros Hm. unfold SetParents. run_locked rbac Hm.
  destruct (rs !! id) as [r|] eqn:Hid.
  - destruct (all_exist rs parentIDs) eqn:Hall.
    + apply all_exist_Forall in Hall. rewrite decide_True by eauto. simpl.
      erewrite add_edges_insert
        by (rewrite ensure_bucket_lookup; by rewrite decide_True).
      do 3 f_equal. apply map_eq. intros k. destruct (decide (k = id)) as [->|Hne].
      * by rewrite !lookup_insert_eq.
      * rewrite !lookup_insert_ne by done. rewrite ensure_bucket_lookup.
        by rewrite decide_False.
    + rewrite decide_False; [done|]. intros [_ Hall'].
      apply all_exist_Forall in Hall'. congruence.
  - rewrite decide_False; [done|]. intros [[? ?] _]. done.
Qed.

Lemma SetParent_unlocked rbac id parent :
  mutex rbac = unlocked →
  SetParent rbac id parent =
    if decide (is_Some (roles rbac !! id) ∧ is_Some (roles rbac !! parent))
    then Returns (None, set_parents
           (<[id := default ∅ (parents rbac !! id) ∪ {[parent]}]> (parents rbac)) rbac)
    else Returns (Some ErrRoleNotExist, rbac).
Proof.
  intros Hm. unfold SetParent. run_locked rbac Hm.
  destruct (rs !! id) as [r|] eqn:Hid.
  - destruct (rs !! parent) as [r'|] eqn:Hp.
    + rewrite decide_True by eauto. simpl. do 3 f_equal.
      unfold add_edge. apply map_eq. intros k. destruct (decide (k = id)) as [->|Hne].
      * rewrite lookup_alter_eq, ensure_bucket_lookup, decide_True by done.
        by rewrite lookup_insert_eq.
      * rewrite lookup_alter_ne, ensure_bucket_lookup, decide_False by done.
        by rewrite lookup_insert_ne.
    + rewrite decide_False; [done|]. intros [_ [? ?]]. done.
  - rewrite decide_False; [done|]. intros [[? ?] _]. done.
Qed.

Lemma RemoveParent_unlocked rbac id parent :
  mutex rbac = unlocked →
  RemoveParent rbac id parent =
    if decide (is_Some (roles rbac !! id) ∧ is_Some (roles rbac !! parent))
    then Returns (None, set_parents (del_edge id parent (parents rbac)) rbac)
    else Returns (Some ErrRoleNotExist, rbac).
Proof.
  intros Hm. unfold RemoveParent. run_locked rbac Hm.
  destruct (rs !! id) as [r|] eqn:Hid.
  - destruct (rs !! parent) as [r'|] eqn:Hp.
    + by rewrite decide_True by eauto.
    + rewrite decide_False; [done|]. intros [_ [? ?]]. done.
  - rewrite decide_False; [done|]. intros [[? ?] _]. done.
Qed.

Lemma Remove_unlocked rbac id :
  mutex rbac = unlocked →
  Remove rbac id =
    match roles rbac !! id with
    | Some _ =>
      Returns (None, {| mutex := unlocked;
                        roles := delete id (roles rbac);
                        parents := (λ b, b ∖ {[id]}) <$> delete id (parents rbac) |})
    | None => Returns (Some ErrRoleNotExist, rbac)
    end.
Proof.
  intros Hm. unfold Remove. run_locked rbac Hm.
  destruct (rs !! id); [|done]. by rewrite scrub_all_closed.
Qed.

Lemma Get_readable rbac id :
  writer (mutex rbac) = false →
  Get rbac id =
    match roles rbac !! id with
    | Some r => Returns ((Some r, range_set (default ∅ (parents rbac !! id)), None), rbac)
    | None => Returns ((None, [], Some ErrRoleNotExist), rbac)
    end.
Proof.
  intros Hw. unfold Get. rewrite rlocked_returns by done. simpl.
  destruct (roles rbac !! id); [|done]. by rewrite collect_range.
Qed.

Lemma IsGranted_readable {H} depth rbac id p (assert : option (AssertionFunc K Permission Role H)) h :
  writer (mutex rbac) = false →
  IsGranted depth rbac id p assert h =
    match isGranted depth (read_locked rbac) id p assert h with
    | Returns a => Returns (a, rbac)
    | Blocks => Blocks
    | Overflows => Overflows
    end.
Proof. intros Hw. unfold IsGranted. by rewrite rlocked_returns. Qed.

Lemma GetParents_unlocked rbac id :
  mutex rbac = unlocked →
  GetParents rbac id =
    match roles rbac !! id with
    | None => Returns (([], Some ErrRoleNotExist), rbac)
    | Some _ => Returns ((range_set (default ∅ (parents rbac !! id)), None), rbac)
    end.
Proof.
  intros Hm. unfold GetParents. run_locked rbac Hm.
  destruct (rs !! id); [|done].
  destruct (ps !! id) as [ids|] eqn:Hids; simpl.
  - by rewrite collect_range.
  - do 3 f_equal. symmetry. apply Permutation_nil_r.
    rewrite range_set_perm. by rewrite elements_empty.
Qed.

Lemma IsGranted_nil_readable {H} depth rbac id p (h : H) :
  writer (mutex rbac) = false →
  IsGranted depth rbac id p None h =
    match recursionCheck depth rbac id p with
    | Returns b => Returns ((b, h), rbac)
    | Blocks => Blocks
    | Overflows => Overflows
    end.
Proof.
  intros Hw. rewrite IsGranted_readable by done. simpl. unfold read_locked.
  rewrite recursionCheck_set_mutex. by destruct (recursionCheck _ _ _ _).
Qed.

Lemma directly_grants_inherits rbac id p :
  directly_grants rbac id p → inherits rbac id p.
Proof. intros Hg. exists id. split; [constructor|done]. Qed.

(** ** Main results *)

(** C1: with a nil hook, on a parent graph acyclic from [id] and with stack
    for one frame per role, [IsGranted] returns, and it returns true exactly
    when some role reached from [id] over zero or more parent edges between
    roles of the store directly grants [p]: true when [id] itself grants
    [p], false when neither it nor an ancestor does. *)
Theorem IsGranted_nil_reachability {H} depth rbac id p (h : H) :
  writer (mutex rbac) = false →
  acyclic_from rbac id →
  size (roles rbac) ≤ S depth →
  ∃ b, IsGranted depth rbac id p None h = Returns ((b, h), rbac) ∧
       (b = true ↔ inherits rbac id p) ∧
       (directly_grants rbac id p → b = true) ∧
       (¬ inherits rbac id p → b = false).
Proof.
  intros Hw Hac Hsize. rewrite IsGranted_nil_readable by done.
  destruct (recursionCheck_returns depth rbac id p ∅ Hac) as [b Hb].
  - intros v Hv. by apply not_elem_of_empty in Hv.
  - rewrite difference_empty_L. by rewrite size_dom.
  - rewrite Hb. exists b. split; [done|].
    assert (b = true ↔ inherits rbac id p) as Hiff.
    { destruct b.
      - split; [intros _; by eapply recursionCheck_true|done].
      - split; [done|]. intros Hin. by apply recursionCheck_false in Hb. }
    split_and!; [done|..].
    + intros Hg. by apply Hiff, directly_grants_inherits.
    + intros Hno. destruct b; [|done]. exfalso. by apply Hno, Hiff.
Qed.

(** C2: for a role id absent from the store, [IsGranted] returns false, with
    any hook and at any depth, while [Get], [GetParents], [SetParent],
    [SetParents] and [RemoveParent] return [ErrRoleNotExist]. *)
Theorem IsGranted_absent_is_denied {H} depth rbac id p
    (assert : option (AssertionFunc K Permission Role H)) (h : H) :
  mutex rbac = unlocked →
  roles rbac !! id = None →
  (∃ h', IsGranted depth rbac id p assert h = Returns ((false, h'), rbac)) ∧
  Get rbac id = Returns ((None, [], Some ErrRoleNotExist), rbac) ∧
  GetParents rbac id = Returns (([], Some ErrRoleNotExist), rbac) ∧
  (∀ parent, SetParent rbac id parent = Returns (Some ErrRoleNotExist, rbac)) ∧
  (∀ parentIDs, SetParents rbac id parentIDs = Returns (Some ErrRoleNotExist, rbac)) ∧
  (∀ parent, RemoveParent rbac id parent = Returns (Some ErrRoleNotExist, rbac)).
Proof.
  intros Hm Hid.
  assert (writer (mutex rbac) = false) as Hw by (by rewrite Hm).
  split_and!.
  - rewrite IsGranted_readable by done. destruct assert as [f|]; simpl.
    + destruct (f (read_locked rbac) id p h) as [[] h'].
      * rewrite recursionCheck_absent by done. eauto.
      * eauto.
    + rewrite recursionCheck_absent by done. eauto.
  - rewrite Get_readable by done. by rewrite Hid.
  - rewrite GetParents_unlocked by done. by rewrite Hid.
  - intros parent. rewrite SetParent_unlocked by done.
    rewrite decide_False; [done|]. rewrite Hid. by intros [[? ?] _].
  - intros parentIDs. rewrite SetParents_unlocked by done.
    rewrite decide_False; [done|]. rewrite Hid. by intros [[? ?] _].
  - intros parent. rewrite RemoveParent_unlocked by done.
    rewrite decide_False; [done|]. rewrite Hid. by intros [[? ?] _].
Qed.

Lemma recursionCheck_exact depth rbac id p (b : bool) :
  recursionCheck depth rbac id p = Returns b → (b = true ↔ inherits rbac id p).
Proof.
  intros Hb. destruct b.
  - split; [intros _; by eapply recursionCheck_true|done].
  - split; [done|]. intros Hin. by apply recursionCheck_false in Hb.
Qed.

(** C3: with a hook [f] that answers [ok] on (engine, id, p), [IsGranted]
    returns false when [ok] is false, whatever the graph; when [ok] is true
    it returns what [recursionCheck] finds in the graph, which is what it
    returns with a nil hook: whenever it returns, true exactly when a role
    reached from [id] grants [p], and on a graph acyclic from [id] with
    stack for one frame per role it does return.  The hook runs once, on
    what a reader sees of the engine: its state afterwards is the one its
    single call left, and a counter it keeps has gone up by one. *)
Theorem IsGranted_hook_vetoes_once {H} depth rbac id p
    (f : AssertionFunc K Permission Role H) (h h' : H) (ok : bool) :
  writer (mutex rbac) = false →
  f (read_locked rbac) id p h = (ok, h') →
  IsGranted depth rbac id p (Some f) h =
    (if ok then IsGranted depth rbac id p None h' else Returns ((false, h'), rbac)) ∧
  (∀ n b hn rbac',
     IsGranted depth rbac id p (Some (counted f)) (h, n) = Returns ((b, hn), rbac') →
     hn = (h', S n)) ∧
  IsGranted depth rbac id p (Some f) h =
    (if ok then
       match recursionCheck depth rbac id p with
       | Returns b => Returns ((b, h'), rbac)
       | Blocks => Blocks
       | Overflows => Overflows
       end
     else Returns ((false, h'), rbac)) ∧
  (ok = true →
   ∀ b h1 rbac',
     IsGranted depth rbac id p (Some f) h = Returns ((b, h1), rbac') →
     h1 = h' ∧ rbac' = rbac ∧ (b = true ↔ inherits rbac id p)) ∧
  (ok = true → acyclic_from rbac id → size (roles rbac) ≤ S depth →
   ∃ b, IsGranted depth rbac id p (Some f) h = Returns ((b, h'), rbac) ∧
        (b = true ↔ inherits rbac id p)).
Proof.
  intros Hw Hf.
  assert (IsGranted depth rbac id p (Some f) h =
            (if ok then
               match recursionCheck depth rbac id p with
               | Returns b => Returns ((b, h'), rbac)
               | Blocks => Blocks
               | Overflows => Overflows
               end
             else Returns ((false, h'), rbac))) as Hrun.
  { rewrite IsGranted_readable by done. simpl. rewrite Hf.
    destruct ok; [|done]. unfold read_locked. rewrite recursionCheck_set_mutex.
    by destruct (recursionCheck _ _ _ _). }
  split_and!.
  - rewrite Hrun. destruct ok; [|done]. by rewrite IsGranted_nil_readable.
  - intros n b hn rbac'. rewrite IsGranted_readable by done. simpl.
    unfold counted at 1. simpl. rewrite Hf.
    destruct ok.
    + destruct (recursionCheck depth (read_locked rbac) id p); [|done..].
      by intros [= _ <- _].
    + by intros [= _ <- _].
  - exact Hrun.
  - intros -> b h1 rbac' Hret. rewrite Hrun in Hret.
    destruct (recursionCheck depth rbac id p) as [b'| |] eqn:Hrc; try done.
    injection Hret as <- <- <-. split_and!; [done..|].
    by eapply recursionCheck_exact.
  - intros -> Hac Hsize. rewrite Hrun.
    destruct (recursionCheck_returns depth rbac id p ∅ Hac) as [b Hb].
    + intros v Hv. by apply not_elem_of_empty in Hv.
    + rewrite difference_empty_L. by rewrite size_dom.
    + rewrite Hb. exists b. split; [done|]. by eapply recursionCheck_exact.
Qed.

Lemma range_set_empty (X : gset K) : X = ∅ → range_set X = [].
Proof.
  intros ->. apply Permutation_nil_r. rewrite range_set_perm. by rewrite elements_empty.
Qed.

(** C4: [Remove] of a role of the store succeeds and, in one step, deletes
    the role, deletes its own bucket of parents and takes it out of every
    other bucket, so that [GetParents] of a remaining role no longer lists
    it; [Remove] of an id that is no role fails with [ErrRoleNotExist]. *)
Theorem Remove_scrubs_graph rbac id :
  mutex rbac = unlocked →
  (is_Some (roles rbac !! id) →
   ∃ rbac',
     Remove rbac id = Returns (None, rbac') ∧
     mutex rbac' = unlocked ∧
     roles rbac' = delete id (roles rbac) ∧
     parents rbac' !! id = None ∧
     (∀ A, A ≠ id → parents rbac' !! A = (λ b, b ∖ {[id]}) <$> parents rbac !! A) ∧
     (∀ A, is_Some (roles rbac' !! A) →
        ∃ l, GetParents rbac' A = Returns ((l, None), rbac') ∧
             (id ∉ l) ∧
             ∀ x, x ∈ l ↔ (x ≠ id ∧ x ∈ default ∅ (parents rbac !! A)))) ∧
  (roles rbac !! id = None → Remove rbac id = Returns (Some ErrRoleNotExist, rbac)).
Proof.
  intros Hm. rewrite Remove_unlocked by done. split.
  - intros [r Hr]. rewrite Hr. eexists. split; [done|]. simpl.
    split_and!; [done|done|..].
    + by rewrite lookup_fmap, lookup_delete_eq.
    + intros A HA. by rewrite lookup_fmap, lookup_delete_ne.
    + intros A [rA HrA]. rewrite GetParents_unlocked by done. simpl. rewrite HrA.
      eexists. split; [done|].
      assert (A ≠ id) as HA by (intros ->; by rewrite lookup_delete_eq in HrA).
      rewrite lookup_fmap, lookup_delete_ne by done.
      assert (∀ x, x ∈ range_set (default ∅ ((λ b, b ∖ {[id]}) <$> parents rbac !! A))
                   ↔ (x ≠ id ∧ x ∈ default ∅ (parents rbac !! A))) as Hl.
      { intros x. rewrite elem_of_range_set.
        destruct (parents rbac !! A); simpl; set_solver. }
      split; [|done]. intros Hin. by apply Hl in Hin as [? _].
  - by intros ->.
Qed.

Lemma mutate_inv rbac c e rbac' :
  mutate rbac c = Returns (e, rbac') → mutex rbac = unlocked.
Proof. destruct c; simpl; apply locked_inv. Qed.

Lemma Exists_absent_not_Forall (rs : gmap K Role) l :
  Exists (λ x, rs !! x = None) l → ¬ Forall (λ x, is_Some (rs !! x)) l.
Proof.
  intros (x & Hin & Hx)%Exists_exists Hall.
  rewrite Forall_forall in Hall. destruct (Hall x Hin) as [r Hr]. congruence.
Qed.

(** C5: a structural mutation that returns an error returns the engine it
    was given; [SetParents] with a parent that is no role returns
    [ErrRoleNotExist] and adds no edge; a second [Add] under the same id
    returns [ErrRoleExist] and the role stored first stays. *)
Theorem mutation_error_keeps_state rbac :
  (∀ c e rbac', mutate rbac c = Returns (Some e, rbac') → rbac' = rbac) ∧
  (∀ id parentIDs,
     mutex rbac = unlocked →
     Exists (λ x, roles rbac !! x = None) parentIDs →
     SetParents rbac id parentIDs = Returns (Some ErrRoleNotExist, rbac)) ∧
  (∀ r r',
     mutex rbac = unlocked → roles rbac !! ID r = None → ID r' = ID r →
     ∃ rbac1, Add rbac r = Returns (None, rbac1) ∧
              Add rbac1 r' = Returns (Some ErrRoleExist, rbac1) ∧
              roles rbac1 !! ID r = Some r).
Proof.
  split_and!.
  - intros c e rbac' Hc. pose proof (mutate_inv _ _ _ _ Hc) as Hm.
    destruct c as [r|id|id parentIDs|id parent|id parent]; simpl in Hc.
    + rewrite Add_unlocked in Hc by done.
      destruct (roles rbac !! ID r); by simplify_eq.
    + rewrite Remove_unlocked in Hc by done.
      destruct (roles rbac !! id); by simplify_eq.
    + rewrite SetParents_unlocked in Hc by done. case_decide; by simplify_eq.
    + rewrite SetParent_unlocked in Hc by done. case_decide; by simplify_eq.
    + rewrite RemoveParent_unlocked in Hc by done. case_decide; by simplify_eq.
  - intros id parentIDs Hm Hex. rewrite SetParents_unlocked by done.
    rewrite decide_False; [done|]. intros [_ Hall].
    by apply Exists_absent_not_Forall in Hex.
  - intros r r' Hm Hr Hid. rewrite Add_unlocked by done. rewrite Hr.
    eexists. split; [done|]. rewrite Add_unlocked by done. simpl.
    rewrite Hid. by rewrite lookup_insert_eq.
Qed.

(** C7: a successful [SetParents] on existing ids leaves [id] with the union
    of the parents it had and the ids of the list, and touches nothing else;
    [GetParents] then lists exactly the old parents and the new ones. *)
Theorem SetParents_merges rbac id parentIDs :
  mutex rbac = unlocked →
  is_Some (roles rbac !! id) →
  Forall (λ x, is_Some (roles rbac !! x)) parentIDs →
  ∃ rbac',
    SetParents rbac id parentIDs = Returns (None, rbac') ∧
    mutex rbac' = unlocked ∧
    roles rbac' = roles rbac ∧
    parents rbac' !! id =
      Some (default ∅ (parents rbac !! id) ∪ list_to_set parentIDs) ∧
    (∀ k, k ≠ id → parents rbac' !! k = parents rbac !! k) ∧
    ∃ l, GetParents rbac' id = Returns ((l, None), rbac') ∧
         ∀ x, x ∈ l ↔ x ∈ default ∅ (parents rbac !! id) ∨ x ∈ parentIDs.
Proof.
  intros Hm [r Hr] Hall. rewrite SetParents_unlocked by done.
  rewrite decide_True by eauto. eexists. split; [done|]. simpl.
  split_and!; [done|done|by rewrite lookup_insert_eq|..].
  - intros k Hk. by rewrite lookup_insert_ne.
  - rewrite GetParents_unlocked by done. simpl. rewrite Hr, lookup_insert_eq. simpl.
    eexists. split; [done|]. intros x. rewrite elem_of_range_set. set_solver.
Qed.

Lemma del_edge_absent id parent (ps : gmap K (gset K)) :
  parent ∉ default ∅ (ps !! id) → del_edge id parent ps = ps.
Proof.
  intros Hin. unfold del_edge. apply map_eq. intros k.
  destruct (decide (k = id)) as [->|Hne]; [|by rewrite lookup_alter_ne].
  rewrite lookup_alter_eq. destruct (ps !! id) as [b|]; simpl in *; [|done].
  f_equal. set_solver.
Qed.

(** C8: for roles [A] and [B] of the store, [A] without parents,
    [SetParent A B] then [RemoveParent A B] succeed and [GetParents A] then
    returns the empty list and no error; and [RemoveParent] succeeds for any
    two roles of the store, changing nothing when the edge was not there. *)
Theorem SetParent_RemoveParent_roundtrip rbac A B :
  mutex rbac = unlocked →
  is_Some (roles rbac !! A) →
  is_Some (roles rbac !! B) →
  (default ∅ (parents rbac !! A) = ∅ →
   ∃ rbac1 rbac2,
     SetParent rbac A B = Returns (None, rbac1) ∧
     RemoveParent rbac1 A B = Returns (None, rbac2) ∧
     GetParents rbac2 A = Returns (([], None), rbac2)) ∧
  (∃ rbac',
     RemoveParent rbac A B = Returns (None, rbac') ∧
     (B ∉ default ∅ (parents rbac !! A) → rbac' = rbac)).
Proof.
  intros Hm [rA HA] [rB HB]. split.
  - intros Hnone. rewrite SetParent_unlocked by done.
    rewrite decide_True by eauto. eexists _, _. split; [done|].
    rewrite RemoveParent_unlocked by done. simpl.
    rewrite decide_True by eauto. split; [done|].
    rewrite GetParents_unlocked by done. simpl. rewrite HA.
    unfold del_edge. rewrite lookup_alter_eq, lookup_insert_eq. simpl.
    rewrite range_set_empty; [done|]. rewrite Hnone. set_solver.
  - rewrite RemoveParent_unlocked by done. rewrite decide_True by eauto.
    eexists. split; [done|]. intros Hin. rewrite del_edge_absent by done.
    apply set_parents_id.
Qed.

(** C6: on a parent graph acyclic from [id] the resolution of [IsGranted]
    returns, within one frame per role of the store; on a graph with a cycle
    reachable from [id] a query for a permission that no reachable role
    grants overflows every stack, there being no cycle guard. *)
Theorem IsGranted_terminates_iff_acyclic {H} rbac id p (h : H) :
  writer (mutex rbac) = false →
  (acyclic_from rbac id →
   ∀ depth, size (roles rbac) ≤ S depth →
     ∃ b, IsGranted depth rbac id p None h = Returns ((b, h), rbac)) ∧
  (¬ acyclic_from rbac id → ¬ inherits rbac id p →
   ∀ depth, IsGranted depth rbac id p None h = Overflows).
Proof.
  intros Hw. split.
  - intros Hac depth Hsize. rewrite IsGranted_nil_readable by done.
    destruct (recursionCheck_returns depth rbac id p ∅ Hac) as [b Hb].
    + intros v Hv. by apply not_elem_of_empty in Hv.
    + rewrite difference_empty_L. by rewrite size_dom.
    + rewrite Hb. eauto.
  - intros Hcyc Hno depth. rewrite IsGranted_nil_readable by done.
    by rewrite recursionCheck_overflows.
Qed.

(** ** Who waits for whom *)

Lemma GetParents_blocks_behind_reader rbac id :
  0 < readers (mutex rbac) → GetParents rbac id = Blocks.
Proof.
  intros Hr. unfold GetParents, locked, mutex_Lock.
  destruct (writer (mutex rbac)); [done|].
  destruct (readers (mutex rbac)); [lia|done].
Qed.

Lemma Get_beside_readers rbac id :
  writer (mutex rbac) = false → ∃ r, Get rbac id = Returns (r, rbac).
Proof.
  intros Hw. rewrite Get_readable by done. destruct (roles rbac !! id); eauto.
Qed.

Lemma IsGranted_beside_readers {H} depth rbac id p
    (assert : option (AssertionFunc K Permission Role H)) (h : H) :
  writer (mutex rbac) = false → IsGranted depth rbac id p assert h ≠ Blocks.
Proof.
  intros Hw. rewrite IsGranted_readable by done.
  destruct assert as [f|]; simpl.
  - destruct (f _ _ _ _) as [[] h']; [|done].
    destruct (recursionCheck _ _ _ _) eqn:Hr; try done.
    by apply recursionCheck_not_blocks in Hr.
  - destruct (recursionCheck _ _ _ _) eqn:Hr; try done.
    by apply recursionCheck_not_blocks in Hr.
Qed.

(** ** The invariant of the parent graph *)

Lemma rlocked_inv {A} rbac (body : RBAC K Role → Outcome A) a rbac' :
  rlocked rbac body = Returns (a, rbac') → rbac' = rbac.
Proof.
  unfold rlocked, mutex_RLock. destruct rbac as [[w n] rs ps]; simpl.
  destruct w; [done|]. destruct (body _); [|done..]. by intros [= _ <-].
Qed.

Lemma graph_closed_New : graph_closed (New : RBAC K Role).
Proof. intros k ps Hk. simpl in Hk. by rewrite lookup_empty in Hk. Qed.

Lemma graph_closed_mutate rbac c e rbac' :
  graph_closed rbac → mutate rbac c = Returns (e, rbac') → graph_closed rbac'.
Proof.
  intros Hgc Hc. pose proof (mutate_inv _ _ _ _ Hc) as Hm.
  destruct c as [r|id|id parentIDs|id parent|id parent]; simpl in Hc.
  - rewrite Add_unlocked in Hc by done.
    destruct (roles rbac !! ID r) eqn:Hr; simplify_eq; [done|].
    intros k ps Hk. simpl in *. destruct (Hgc k ps Hk) as [Hk1 Hk2].
    split; [apply lookup_insert_is_Some'; by right|].
    intros x Hx. apply lookup_insert_is_Some'. right. by apply Hk2.
  - rewrite Remove_unlocked in Hc by done.
    destruct (roles rbac !! id) eqn:Hr; simplify_eq; [|done].
    intros k ps'. simpl. rewrite lookup_fmap. intros Hk.
    destruct (decide (k = id)) as [->|Hne]; [by rewrite lookup_delete_eq in Hk|].
    rewrite lookup_delete_ne in Hk by done.
    destruct (parents rbac !! k) as [b|] eqn:Hb; simplify_eq/=.
    destruct (Hgc k b Hb) as [Hk1 Hk2]. split; [by rewrite lookup_delete_ne|].
    intros x [Hx Hxid%not_elem_of_singleton]%elem_of_difference.
    rewrite lookup_delete_ne by done. by apply Hk2.
  - rewrite SetParents_unlocked in Hc by done.
    case_decide as Hok; simplify_eq; [|done]. destruct Hok as [Hid Hall].
    intros k ps'. simpl. destruct (decide (k = id)) as [->|Hne].
    + rewrite lookup_insert_eq. intros [= <-]. split; [done|].
      intros x [Hx|Hx]%elem_of_union.
      * destruct (parents rbac !! id) as [b|] eqn:Hb; simpl in Hx.
        -- by apply (Hgc id b Hb).
        -- by apply not_elem_of_empty in Hx.
      * apply elem_of_list_to_set in Hx. rewrite Forall_forall in Hall.
        by apply Hall.
    + rewrite lookup_insert_ne by done. apply Hgc.
  - rewrite SetParent_unlocked in Hc by done.
    case_decide as Hok; simplify_eq; [|done]. destruct Hok as [Hid Hp].
    intros k ps'. simpl. destruct (decide (k = id)) as [->|Hne].
    + rewrite lookup_insert_eq. intros [= <-]. split; [done|].
      intros x [Hx|Hx%elem_of_singleton]%elem_of_union; [|by subst].
      destruct (parents rbac !! id) as [b|] eqn:Hb; simpl in Hx.
      * by apply (Hgc id b Hb).
      * by apply not_elem_of_empty in Hx.
    + rewrite lookup_insert_ne by done. apply Hgc.
  - rewrite RemoveParent_unlocked in Hc by done.
    case_decide as Hok; simplify_eq; [|done].
    intros k ps'. simpl. unfold del_edge. destruct (decide (k = id)) as [->|Hne].
    + rewrite lookup_alter_eq.
      destruct (parents rbac !! id) as [b|] eqn:Hb; simpl; [|done].
      intros [= <-]. destruct (Hgc id b Hb) as [Hk1 Hk2]. split; [done|].
      intros x [Hx _]%elem_of_difference. by apply Hk2.
    + rewrite lookup_alter_ne by done. apply Hgc.
Qed.

(** C10: in every state reached from [New] by public operations, each
    identifier of the parent graph, as owner of a parent set or as member
    of one, is a role of the store. *)
Theorem reachable_graph_closed rbac : reachable rbac → graph_closed rbac.
Proof.
  induction 1 as [|rbac c e rbac' _ IH Hc|rbac id r rbac' _ IH Hc
                 |rbac id r rbac' _ IH Hc|H' rbac depth id p assert h r rbac' _ IH Hc].
  - apply graph_closed_New.
  - by eapply graph_closed_mutate.
  - unfold Get in Hc. by apply rlocked_inv in Hc as ->.
  - pose proof (locked_inv _ _ _ _ Hc) as Hm.
    rewrite GetParents_unlocked in Hc by done.
    destruct (roles rbac !! id); by simplify_eq.
  - unfold IsGranted in Hc. by apply rlocked_inv in Hc as ->.
Qed.

End Properties.

(** * The scenario, run *)

Import Scenario.

Lemma scenario_is_built :
  Add New admin = Returns (None, set_roles {[ "admin" := admin ]} New) ∧
  Add (set_roles {[ "admin" := admin ]} New) editor = Returns (None, two_roles) ∧
  SetParent two_roles "editor" "admin" = Returns (None, engine).
Proof. split_and!; vm_compute; reflexivity. Qed.

Lemma scenario_queries :
  IsGranted 1 engine "editor" "edit" None () = Returns ((true, ()), engine) ∧
  IsGranted 1 engine "editor" "delete" None () = Returns ((true, ()), engine) ∧
  IsGranted 1 engine "admin" "edit" None () = Returns ((false, ()), engine).
Proof. split_and!; vm_compute; reflexivity. Qed.

Lemma diamond_either_branch :
  IsGranted 1 diamond "a" "p" None () = Returns ((true, ()), diamond) ∧
  IsGranted 1 diamond "c" "p" None () = Returns ((false, ()), diamond).
Proof. split; vm_compute; reflexivity. Qed.

Lemma engine_edge a b : parent_edge engine a b → a = "editor" ∧ b = "admin".
Proof.
  intros (_ & _ & ps & Hps & Hin). simpl in Hps.
  apply lookup_singleton_Some in Hps as [<- <-].
  by apply elem_of_singleton in Hin.
Qed.

Lemma engine_acyclic id : acyclic_from engine id.
Proof.
  intros x _ (y & [-> ->]%engine_edge & Hyx)%tc_first.
  apply rtc_inv in Hyx as [?|(z & [? _]%engine_edge & _)]; done.
Qed.

Lemma looping_cyclic : ¬ acyclic_from looping "admin".
Proof.
  intros Hac. apply (Hac "admin"); [constructor|].
  apply (tc_l _ _ "editor").
  - split_and!; [by eexists..|]. exists {[ "editor" ]}. split; [done|set_solver].
  - apply tc_once.
    split_and!; [by eexists..|]. exists {[ "admin" ]}. split; [done|set_solver].
Qed.

Lemma looping_nobody_publishes id : ¬ inherits looping id "publish".
Proof.
  intros (r & _ & role & Hr & Hp). simpl in Hr.
  apply lookup_insert_Some in Hr as [[<- <-]|[_ Hr]]; [done|].
  by apply lookup_singleton_Some in Hr as [<- <-].
Qed.

(** * Witnesses *)

Lemma IsGranted_nil_reachability_witness :
  ∃ b, IsGranted 1 engine "editor" "delete" None () = Returns ((b, ()), engine) ∧
       (b = true ↔ inherits engine "editor" "delete") ∧
       (directly_grants engine "editor" "delete" → b = true) ∧
       (¬ inherits engine "editor" "delete" → b = false).
Proof.
  apply (IsGranted_nil_reachability 1 engine "editor" "delete" ()).
  - reflexivity.
  - apply engine_acyclic.
  - vm_compute. lia.
Defined.

Lemma IsGranted_absent_is_denied_witness :
  (∃ h', IsGranted 0 engine "guest" "edit" (Some allow) () = Returns ((false, h'), engine)) ∧
  Get engine "guest" = Returns ((None, [], Some ErrRoleNotExist), engine) ∧
  GetParents engine "guest" = Returns (([], Some ErrRoleNotExist), engine) ∧
  (∀ parent, SetParent engine "guest" parent = Returns (Some ErrRoleNotExist, engine)) ∧
  (∀ parentIDs, SetParents engine "guest" parentIDs = Returns (Some ErrRoleNotExist, engine)) ∧
  (∀ parent, RemoveParent engine "guest" parent = Returns (Some ErrRoleNotExist, engine)).
Proof.
  apply (IsGranted_absent_is_denied 0 engine "guest" "edit" (Some allow) ()).
  - reflexivity.
  - vm_compute. reflexivity.
Defined.

Lemma IsGranted_hook_vetoes_once_witness :
  IsGranted 1 engine "editor" "edit" (Some veto) () = Returns ((false, ()), engine) ∧
  IsGranted 1 engine "editor" "delete" (Some allow) () = Returns ((true, ()), engine) ∧
  IsGranted 1 engine "admin" "edit" (Some allow) () = Returns ((false, ()), engine) ∧
  (∃ b, IsGranted 1 engine "editor" "delete" (Some allow) () = Returns ((b, ()), engine) ∧
        (b = true ↔ inherits engine "editor" "delete")) ∧
  (∀ n b hn rbac',
     IsGranted 1 engine "editor" "delete" (Some (counted allow)) ((), n)
       = Returns ((b, hn), rbac') →
     hn = ((), S n)).
Proof.
  destruct (IsGranted_hook_vetoes_once 1 engine "editor" "edit" veto () () false
              eq_refl eq_refl) as (Hveto & _).
  destruct (IsGranted_hook_vetoes_once 1 engine "editor" "delete" allow () () true
              eq_refl eq_refl) as (_ & Honce & Hrun & _ & Hacyclic).
  destruct (IsGranted_hook_vetoes_once 1 engine "admin" "edit" allow () () true
              eq_refl eq_refl) as (_ & _ & Hdenied & _).
  split_and!.
  - exact Hveto.
  - etrans; [exact Hrun|]. vm_compute. reflexivity.
  - etrans; [exact Hdenied|]. vm_compute. reflexivity.
  - apply Hacyclic; [reflexivity|apply engine_acyclic|]. vm_compute. lia.
  - exact Honce.
Defined.

Lemma Remove_scrubs_graph_witness :
  is_Some (roles engine !! "admin") ∧
  ∃ rbac',
    Remove engine "admin" = Returns (None, rbac') ∧
    mutex rbac' = unlocked ∧
    roles rbac' = delete "admin" (roles engine) ∧
    parents rbac' !! "admin" = None ∧
    (∀ A, A ≠ "admin" →
       parents rbac' !! A = (λ b, b ∖ {[ "admin" ]}) <$> parents engine !! A) ∧
    (∀ A, is_Some (roles rbac' !! A) →
       ∃ l, GetParents rbac' A = Returns ((l, None), rbac') ∧
            ("admin" ∉ l) ∧
            ∀ x, x ∈ l ↔ (x ≠ "admin" ∧ x ∈ default ∅ (parents engine !! A))).
Proof.
  assert (is_Some (roles engine !! "admin")) as Hadmin by (by eexists).
  split; [exact Hadmin|].
  exact (proj1 (Remove_scrubs_graph engine "admin" eq_refl) Hadmin).
Defined.

Lemma mutation_error_keeps_state_witness :
  (mutate engine (CallRemoveParent "editor" "ghost")
     = Returns (Some ErrRoleNotExist, engine) ∧ engine = engine) ∧
  SetParents two_roles "editor" ["admin"; "ghost"]
    = Returns (Some ErrRoleNotExist, two_roles) ∧
  (∃ rbac1,
     Add New admin = Returns (None, rbac1) ∧
     Add rbac1 renamed = Returns (Some ErrRoleExist, rbac1) ∧
     roles rbac1 !! ID admin = Some admin).
Proof.
  assert (mutate engine (CallRemoveParent "editor" "ghost")
            = Returns (Some ErrRoleNotExist, engine)) as Hfails
    by (vm_compute; reflexivity).
  split_and!.
  - exact Hfails.
  - exact (proj1 (mutation_error_keeps_state engine) _ _ _ Hfails).
  - apply (proj1 (proj2 (mutation_error_keeps_state two_roles))); [reflexivity|].
    apply Exists_cons. right. apply Exists_cons. left. vm_compute. reflexivity.
  - apply (proj2 (proj2 (mutation_error_keeps_state New)) admin renamed);
      reflexivity.
Defined.

Lemma IsGranted_terminates_iff_acyclic_witness :
  (∃ b, IsGranted 1 engine "editor" "publish" None () = Returns ((b, ()), engine)) ∧
  (∀ depth, IsGranted depth looping "admin" "publish" None () = Overflows).
Proof.
  split.
  - apply (proj1 (IsGranted_terminates_iff_acyclic engine "editor" "publish" () eq_refl)).
    + apply engine_acyclic.
    + vm_compute. lia.
  - apply (proj2 (IsGranted_terminates_iff_acyclic looping "admin" "publish" () eq_refl)).
    + apply looping_cyclic.
    + apply looping_nobody_publishes.
Defined.

Lemma SetParents_merges_witness :
  ∃ rbac',
    SetParents engine "editor" ["editor"] = Returns (None, rbac') ∧
    mutex rbac' = unlocked ∧
    roles rbac' = roles engine ∧
    parents rbac' !! "editor" =
      Some (default ∅ (parents engine !! "editor") ∪ list_to_set ["editor"]) ∧
    (∀ k, k ≠ "editor" → parents rbac' !! k = parents engine !! k) ∧
    ∃ l, GetParents rbac' "editor" = Returns ((l, None), rbac') ∧
         ∀ x, x ∈ l ↔ x ∈ default ∅ (parents engine !! "editor") ∨ x ∈ ["editor"].
Proof.
  apply (SetParents_merges engine "editor" ["editor"]).
  - reflexivity.
  - by eexists.
  - repeat constructor. by eexists.
Defined.

Lemma SetParent_RemoveParent_roundtrip_witness :
  (∃ rbac1 rbac2,
     SetParent two_roles "editor" "admin" = Returns (None, rbac1) ∧
     RemoveParent rbac1 "editor" "admin" = Returns (None, rbac2) ∧
     GetParents rbac2 "editor" = Returns (([], None), rbac2)) ∧
  (∃ rbac',
     RemoveParent two_roles "editor" "admin" = Returns (None, rbac') ∧
     ("admin" ∉ default ∅ (parents two_roles !! "editor") → rbac' = two_roles)).
Proof.
  destruct (SetParent_RemoveParent_roundtrip two_roles "editor" "admin")
    as [Hround Hsilent].
  - reflexivity.
  - by eexists.
  - by eexists.
  - split; [apply Hround; reflexivity|exact Hsilent].
Defined.

Lemma engine_reachable : reachable engine.
Proof.
  destruct scenario_is_built as (H1 & H2 & H3).
  eapply (reach_mutate _ (CallSetParent "editor" "admin")); [|exact H3].
  eapply (reach_mutate _ (CallAdd editor)); [|exact H2].
  eapply (reach_mutate _ (CallAdd admin)); [|exact H1].
  apply reach_New.
Qed.

Lemma reachable_graph_closed_witness : graph_closed engine.
Proof. apply (reachable_graph_closed engine). apply engine_reachable. Defined.

(** * The lock of [GetParents] *)

(** C9: an engine on which one reader holds the shared lock.  [Get] and
    [IsGranted] go ahead beside that reader; [GetParents], which only reads
    as well, takes the exclusive lock and waits. *)
Theorem GetParents_takes_exclusive_lock :
  GetParents (read_locked engine) "editor" = Blocks ∧
  Get (read_locked engine) "editor"
    = Returns ((Some editor, ["admin"], None), read_locked engine) ∧
  IsGranted 1 (read_locked engine) "editor" "delete" None ()
    = Returns ((true, ()), read_locked engine).
Proof. split_and!; vm_compute; reflexivity. Qed.

(** * Further properties of the operations *)

Section MoreProperties.
Context {K : Type} {EqK : EqDecision K} {CountK : Countable K}.
Context {Permission Role : Type}.
Context {RoleK : RoleLike K Permission Role} {RangeK : MapRange K}.
Implicit Types (rbac : RBAC K Role) (id parent : K) (p : Permission).

Lemma RBAC_eq rbac1 rbac2 :
  mutex rbac1 = mutex rbac2 → roles rbac1 = roles rbac2 →
  parents rbac1 = parents rbac2 → rbac1 = rbac2.
Proof. destruct rbac1, rbac2; simpl; congruence. Qed.

Lemma unlocked_or_held (m : RWMutex) : m = unlocked ∨ m ≠ unlocked.
Proof. destruct m as [[] [|n]]; [by right..|by left|by right]. Qed.

Lemma locked_blocks {A} rbac (body : RBAC K Role → A * RBAC K Role) :
  mutex rbac ≠ unlocked → locked rbac body = Blocks.
Proof.
  unfold locked, mutex_Lock. destruct rbac as [[w n] rs ps]; simpl.
  destruct w; [done|]. destruct n; [|done]. intros Hne. by destruct Hne.
Qed.

Lemma locked_not_overflows {A} rbac (body : RBAC K Role → A * RBAC K Role) :
  locked rbac body ≠ Overflows.
Proof.
  unfold locked. destruct (mutex_Lock _); [|done]. by destruct (body _).
Qed.

Lemma closed_no_bucket rbac id :
  graph_closed rbac → roles rbac !! id = None → parents rbac !! id = None.
Proof.
  intros Hgc Hid. destruct (parents rbac !! id) as [ps|] eqn:Hps; [|done].
  destruct (Hgc id ps Hps) as [[r Hr] _]. congruence.
Qed.

Lemma closed_not_member rbac id k ps :
  graph_closed rbac → roles rbac !! id = None →
  parents rbac !! k = Some ps → id ∉ ps.
Proof.
  intros Hgc Hid Hps Hin. destruct (Hgc k ps Hps) as [_ Hmem].
  destruct (Hmem id Hin) as [r Hr]. congruence.
Qed.

Lemma NoDup_range_set (X : gset K) : NoDup (range_set X).
Proof. rewrite range_set_perm. apply NoDup_elements. Qed.

(** X1: [Add] of a role under a fresh id, on an engine whose parent graph
    names only stored roles, succeeds; [Get] of that id then returns the
    very role with no parents and no error, and neither the other roles nor
    the parent graph have changed. *)
Theorem Add_then_Get rbac (r : Role) :
  mutex rbac = unlocked →
  graph_closed rbac →
  roles rbac !! ID r = None →
  ∃ rbac',
    Add rbac r = Returns (None, rbac') ∧
    Get rbac' (ID r) = Returns ((Some r, [], None), rbac') ∧
    parents rbac' = parents rbac ∧
    ∀ k, k ≠ ID r → roles rbac' !! k = roles rbac !! k.
Proof.
  intros Hm Hgc Hr. rewrite Add_unlocked by done. rewrite Hr.
  eexists. split; [done|]. split_and!.
  - rewrite Get_readable by (simpl; by rewrite Hm). simpl.
    rewrite lookup_insert_eq. rewrite (closed_no_bucket _ _ Hgc Hr). simpl.
    by rewrite range_set_empty.
  - done.
  - intros k Hk. simpl. by rewrite lookup_insert_ne.
Qed.

(** X2: for a stored role, [Get] returns the role and [GetParents] returns
    no error; the two parent lists are permutations of each other, hold no
    id twice and hold exactly the members of the role's bucket. *)
Theorem Get_GetParents_agree rbac id (r : Role) :
  mutex rbac = unlocked →
  roles rbac !! id = Some r →
  ∃ l1 l2,
    Get rbac id = Returns ((Some r, l1, None), rbac) ∧
    GetParents rbac id = Returns ((l2, None), rbac) ∧
    l1 ≡ₚ l2 ∧ NoDup l1 ∧
    ∀ x, x ∈ l1 ↔ x ∈ default ∅ (parents rbac !! id).
Proof.
  intros Hm Hr. rewrite Get_readable by (by rewrite Hm).
  rewrite GetParents_unlocked by done. rewrite Hr.
  eexists _, _. split_and!; [done|done|done|apply NoDup_range_set|].
  intros x. apply elem_of_range_set.
Qed.

(** X3: a mutation that has succeeded, called again with the same arguments
    on the engine it returned, returns that engine unchanged: [SetParents],
    [SetParent] and [RemoveParent] succeed again, [Add] fails with
    [ErrRoleExist] and [Remove] with [ErrRoleNotExist]. *)
Theorem mutation_repeated rbac (c : Mutation K Role) rbac1 :
  mutate rbac c = Returns (None, rbac1) →
  mutate rbac1 c =
    Returns (match c with
             | CallAdd _ => Some ErrRoleExist
             | CallRemove _ => Some ErrRoleNotExist
             | _ => None
             end, rbac1).
Proof.
  intros Hc. pose proof (mutate_inv _ _ _ _ Hc) as Hm.
  destruct c as [r|id|id parentIDs|id parent|id parent]; simpl in *.
  - rewrite Add_unlocked in Hc by done.
    destruct (roles rbac !! ID r) eqn:Hr; simplify_eq.
    rewrite Add_unlocked by done. simpl. by rewrite lookup_insert_eq.
  - rewrite Remove_unlocked in Hc by done.
    destruct (roles rbac !! id) eqn:Hr; simplify_eq.
    rewrite Remove_unlocked by done. simpl. by rewrite lookup_delete_eq.
  - rewrite SetParents_unlocked in Hc by done.
    case_decide as Hok; simplify_eq.
    rewrite SetParents_unlocked by done. simpl. rewrite decide_True by done.
    do 2 f_equal. apply RBAC_eq; simpl; [done..|].
    rewrite lookup_insert_eq, insert_insert_eq. simpl. f_equal. set_solver.
  - rewrite SetParent_unlocked in Hc by done.
    case_decide as Hok; simplify_eq.
    rewrite SetParent_unlocked by done. simpl. rewrite decide_True by done.
    do 2 f_equal. apply RBAC_eq; simpl; [done..|].
    rewrite lookup_insert_eq, insert_insert_eq. simpl. f_equal. set_solver.
  - rewrite RemoveParent_unlocked in Hc by done.
    case_decide as Hok; simplify_eq.
    rewrite RemoveParent_unlocked by done. simpl. rewrite decide_True by done.
    do 2 f_equal. apply RBAC_eq; simpl; [done..|].
    unfold del_edge. apply map_eq. intros k.
    destruct (decide (k = id)) as [->|Hne].
    + rewrite !lookup_alter_eq. destruct (parents rbac !! id); simpl; [|done].
      f_equal. set_solver.
    + by rewrite !lookup_alter_ne.
Qed.

(** X4: when every id of the list is a role, [SetParents] with a list that
    starts with [parent] does what [SetParent] with [parent] followed by
    [SetParents] with the rest of the list does. *)
Theorem SetParents_is_SetParent_each rbac id parent parentIDs rbac1 :
  SetParent rbac id parent = Returns (None, rbac1) →
  Forall (λ x, is_Some (roles rbac !! x)) parentIDs →
  SetParents rbac id (parent :: parentIDs) = SetParents rbac1 id parentIDs.
Proof.
  intros Hc Hall. pose proof (locked_inv _ _ _ _ Hc) as Hm.
  rewrite SetParent_unlocked in Hc by done.
  case_decide as Hok; simplify_eq. destruct Hok as [Hid Hp].
  rewrite !SetParents_unlocked by done. simpl.
  rewrite !decide_True by (split; [done|]; by try apply Forall_cons).
  do 2 f_equal. apply RBAC_eq; simpl; [done..|].
  rewrite lookup_insert_eq, insert_insert_eq. simpl. f_equal. set_solver.
Qed.

(** X5: [SetParents] looks at its list as a set: two lists with the same
    ids, in any order and with any repetitions, give the same result. *)
Theorem SetParents_list_as_set rbac id (l1 l2 : list K) :
  list_to_set l1 =@{gset K} list_to_set l2 →
  SetParents rbac id l1 = SetParents rbac id l2.
Proof.
  intros Hset. destruct (unlocked_or_held (mutex rbac)) as [Hm|Hm].
  - rewrite !SetParents_unlocked by done. rewrite Hset.
    assert (Forall (λ x, is_Some (roles rbac !! x)) l1
            ↔ Forall (λ x, is_Some (roles rbac !! x)) l2) as Hall.
    { rewrite !Forall_forall. split; intros Hl x Hx; apply Hl.
      - by rewrite <- (elem_of_list_to_set (C:=gset K)), Hset, elem_of_list_to_set.
      - by rewrite <- (elem_of_list_to_set (C:=gset K)), <- Hset, elem_of_list_to_set. }
    destruct (decide (is_Some (roles rbac !! id) ∧ Forall _ l1)) as [[? ?]|Hno].
    + rewrite decide_True; [done|]. split; [done|]. by apply Hall.
    + rewrite decide_False; [done|]. intros [? ?]. apply Hno. split; [done|].
      by apply Hall.
  - unfold SetParents. by rewrite !locked_blocks.
Qed.

(** ** The resolution, whatever the graph *)

Lemma rlocked_readable {A} rbac (body : RBAC K Role → Outcome A) r :
  rlocked rbac body = Returns r → writer (mutex rbac) = false.
Proof. unfold rlocked, mutex_RLock. by destruct (writer (mutex rbac)). Qed.

Lemma rlocked_blocks {A} rbac (body : RBAC K Role → Outcome A) :
  writer (mutex rbac) = true → rlocked rbac body = Blocks.
Proof. intros Hw. unfold rlocked, mutex_RLock. by rewrite Hw. Qed.

Lemma recursionCheck_read_locked depth rbac id p :
  recursionCheck depth (read_locked rbac) id p = recursionCheck depth rbac id p.
Proof. apply recursionCheck_set_mutex. Qed.

(** X6: for a stored role that grants [p] itself, or that has no parent,
    [IsGranted] with a nil hook returns what the role's own [Permit] says,
    at every depth and whatever the rest of the graph looks like. *)
Theorem IsGranted_without_descent {H} depth rbac id p (role : Role) (h : H) :
  writer (mutex rbac) = false →
  roles rbac !! id = Some role →
  Permit role p = true ∨ default ∅ (parents rbac !! id) = ∅ →
  IsGranted depth rbac id p None h = Returns ((Permit role p, h), rbac).
Proof.
  intros Hw Hr Hcase. rewrite IsGranted_nil_readable by done.
  rewrite recursionCheck_unfold, Hr.
  destruct (Permit role p) eqn:Hp; [done|].
  destruct Hcase as [?|Hnone]; [done|].
  destruct (parents rbac !! id) as [ps|]; simpl in *; [|done].
  by rewrite range_set_empty.
Qed.

(** X7: whenever [IsGranted] returns true, with whatever hook, at whatever
    depth and on whatever graph, some role reached from [id] over parent
    edges grants [p]. *)
Theorem IsGranted_true_is_founded {H} depth rbac id p
    (assert : option (AssertionFunc K Permission Role H)) (h h' : H) rbac' :
  IsGranted depth rbac id p assert h = Returns ((true, h'), rbac') →
  inherits rbac id p.
Proof.
  intros Hret. pose proof (rlocked_readable _ _ _ Hret) as Hw.
  rewrite IsGranted_readable in Hret by done.
  destruct assert as [f|]; simpl in Hret.
  - destruct (f _ _ _ _) as [[] h1]; [|done].
    rewrite recursionCheck_read_locked in Hret.
    destruct (recursionCheck depth rbac id p) as [[]| |] eqn:Hrc; try done.
    by eapply recursionCheck_true.
  - rewrite recursionCheck_read_locked in Hret.
    destruct (recursionCheck depth rbac id p) as [[]| |] eqn:Hrc; try done.
    by eapply recursionCheck_true.
Qed.

(** X8: whenever [IsGranted] with a nil hook returns, its answer is exact:
    true if and only if a role reached from [id] grants [p]; and it returns
    false only on a graph with no cycle reachable from [id]. *)
Theorem IsGranted_nil_answer_exact {H} depth rbac id p (h h' : H) (b : bool) rbac' :
  IsGranted depth rbac id p None h = Returns ((b, h'), rbac') →
  (b = true ↔ inherits rbac id p) ∧ (b = false → acyclic_from rbac id).
Proof.
  intros Hret. pose proof (rlocked_readable _ _ _ Hret) as Hw.
  rewrite IsGranted_nil_readable in Hret by done.
  destruct (recursionCheck depth rbac id p) as [b'| |] eqn:Hrc; try done.
  injection Hret as <- <- <-. destruct b'.
  - split; [|done]. split; [intros _; by eapply recursionCheck_true|done].
  - split; [|intros _; by eapply recursionCheck_false_acyclic].
    split; [done|]. intros Hin. by apply recursionCheck_false in Hrc.
Qed.

(** X9: on a graph acyclic from [id], given stack for one frame per role,
    what [IsGranted] returns does not depend on the order in which Go
    ranges over the parent sets. *)
Theorem IsGranted_order_independent (R1 R2 : MapRange K) {H} depth rbac id p
    (assert : option (AssertionFunc K Permission Role H)) (h : H) :
  acyclic_from rbac id →
  size (roles rbac) ≤ S depth →
  IsGranted (RangeK:=R1) depth rbac id p assert h
  = IsGranted (RangeK:=R2) depth rbac id p assert h.
Proof.
  intros Hac Hsize.
  destruct (writer (mutex rbac)) eqn:Hw.
  { unfold IsGranted. by rewrite !rlocked_blocks. }
  assert (recursionCheck (RangeK:=R1) depth rbac id p
          = recursionCheck (RangeK:=R2) depth rbac id p) as Hsame.
  { destruct (recursionCheck_returns (RangeK:=R1) depth rbac id p ∅ Hac) as [b1 Hb1];
      [set_solver|by rewrite difference_empty_L, size_dom|].
    destruct (recursionCheck_returns (RangeK:=R2) depth rbac id p ∅ Hac) as [b2 Hb2];
      [set_solver|by rewrite difference_empty_L, size_dom|].
    rewrite Hb1, Hb2. f_equal. destruct b1, b2; try done.
    - apply recursionCheck_true in Hb1. by apply recursionCheck_false in Hb2.
    - apply recursionCheck_true in Hb2. by apply recursionCheck_false in Hb1. }
  rewrite !IsGranted_readable by done.
  destruct assert as [f|]; simpl.
  - destruct (f _ _ _ _) as [[] h1]; [|done].
    unfold read_locked. rewrite !recursionCheck_set_mutex. by rewrite Hsame.
  - unfold read_locked. rewrite !recursionCheck_set_mutex. by rewrite Hsame.
Qed.

Lemma check_parents_mono (rs : gmap K Role) call call' l b :
  (∀ x c, call x = Returns c → call' x = Returns c) →
  check_parents rs call l = Returns b → check_parents rs call' l = Returns b.
Proof.
  intros Hcall. induction l as [|y l IH]; simpl; [done|].
  destruct (rs !! y); [|done].
  destruct (call y) as [[]| |] eqn:Hy; try done.
  - by rewrite (Hcall _ _ Hy).
  - by rewrite (Hcall _ _ Hy).
Qed.

Lemma recursionCheck_mono depth depth' rbac id p b :
  depth ≤ depth' →
  recursionCheck depth rbac id p = Returns b →
  recursionCheck depth' rbac id p = Returns b.
Proof.
  revert depth' id b. induction depth as [|d IH]; intros depth' id b Hle.
  all: rewrite !recursionCheck_unfold.
  all: destruct (roles rbac !! id) as [role|]; [|done].
  all: destruct (Permit role p); [done|].
  all: destruct (parents rbac !! id) as [ps|]; [|done].
  all: apply check_parents_mono; intros x c; simpl; try done.
  destruct depth' as [|d']; [lia|]. simpl. apply IH. lia.
Qed.

(** More stack never changes an answer: what [IsGranted] returns at one
    depth it returns at every greater depth. *)
Theorem IsGranted_more_stack {H} depth depth' rbac id p
    (assert : option (AssertionFunc K Permission Role H)) (h : H) r :
  depth ≤ depth' →
  IsGranted depth rbac id p assert h = Returns r →
  IsGranted depth' rbac id p assert h = Returns r.
Proof.
  intros Hle Hret. pose proof (rlocked_readable _ _ _ Hret) as Hw.
  rewrite IsGranted_readable in Hret |- * by done.
  destruct assert as [f|]; simpl in *.
  - destruct (f _ _ _ _) as [[] h1]; [|done].
    destruct (recursionCheck depth _ id p) as [b| |] eqn:Hrc; try done.
    by rewrite (recursionCheck_mono _ _ _ _ _ _ Hle Hrc).
  - destruct (recursionCheck depth _ id p) as [b| |] eqn:Hrc; try done.
    by rewrite (recursionCheck_mono _ _ _ _ _ _ Hle Hrc).
Qed.

(** ** Mutations and the inheritance relation *)

Lemma subgraph_edge rbac1 rbac2 a b :
  subgraph rbac1 rbac2 → parent_edge rbac1 a b → parent_edge rbac2 a b.
Proof.
  intros [Hroles Hbuckets] ([ra Ha] & [rb Hb] & ps & Hps & Hin).
  destruct (Hbuckets _ _ Hps) as (ps' & Hps' & Hsub).
  split_and!; [by eexists; apply Hroles..|]. exists ps'. split; [done|set_solver].
Qed.

Lemma subgraph_grants rbac1 rbac2 x p :
  subgraph rbac1 rbac2 → directly_grants rbac1 x p → directly_grants rbac2 x p.
Proof. intros [Hroles _] (role & Hr & Hp). exists role. split; [by apply Hroles|done]. Qed.

Lemma rtc_included (R1 R2 : relation K) x y :
  (∀ a b, R1 a b → R2 a b) → rtc R1 x y → rtc R2 x y.
Proof.
  intros Hsub. induction 1 as [|x y z Hxy _ IH]; [constructor|].
  eapply rtc_l; [by apply Hsub|done].
Qed.

Lemma tc_included (R1 R2 : relation K) x y :
  (∀ a b, R1 a b → R2 a b) → tc R1 x y → tc R2 x y.
Proof.
  intros Hsub. induction 1 as [x y Hxy|x y z Hxy _ IH].
  - apply tc_once. by apply Hsub.
  - eapply tc_l; [by apply Hsub|done].
Qed.

Lemma acyclic_included rbac1 rbac2 A :
  (∀ a b, parent_edge rbac1 a b → parent_edge rbac2 a b) →
  acyclic_from rbac2 A → acyclic_from rbac1 A.
Proof.
  intros Hsub Hac x Hx Hc. apply (Hac x).
  - by eapply rtc_included.
  - by eapply tc_included.
Qed.

Lemma subgraph_inherits rbac1 rbac2 A p :
  subgraph rbac1 rbac2 → inherits rbac1 A p → inherits rbac2 A p.
Proof.
  intros Hsub (r & Hr & Hg). exists r. split.
  - eapply rtc_included; [|done]. intros a b. by apply subgraph_edge.
  - by eapply subgraph_grants.
Qed.

Lemma mutate_subgraph rbac (c : Mutation K Role) rbac' :
  mutate rbac c = Returns (None, rbac') →
  if grows c then subgraph rbac rbac' else subgraph rbac' rbac.
Proof.
  intros Hc. pose proof (mutate_inv _ _ _ _ Hc) as Hm.
  destruct c as [r|id|id parentIDs|id parent|id parent]; simpl in *.
  - rewrite Add_unlocked in Hc by done.
    destruct (roles rbac !! ID r) eqn:Hr; simplify_eq. split; simpl.
    + intros k r' Hk. rewrite lookup_insert_ne; [done|]. by intros <-; simplify_eq.
    + intros k ps Hps. by exists ps.
  - rewrite Remove_unlocked in Hc by done.
    destruct (roles rbac !! id) eqn:Hr; simplify_eq. split; simpl.
    + intros k r' Hk. by apply lookup_delete_Some in Hk as [_ ?].
    + intros k ps'. rewrite lookup_fmap.
      intros (b & Hb & ->)%fmap_Some. apply lookup_delete_Some in Hb as [_ Hb].
      exists b. split; [done|set_solver].
  - rewrite SetParents_unlocked in Hc by done.
    case_decide as Hok; simplify_eq. split; simpl; [done|].
    intros k ps Hps. destruct (decide (k = id)) as [->|Hne].
    + rewrite lookup_insert_eq, Hps. eexists. split; [done|]. simpl. set_solver.
    + rewrite lookup_insert_ne by done. by exists ps.
  - rewrite SetParent_unlocked in Hc by done.
    case_decide as Hok; simplify_eq. split; simpl; [done|].
    intros k ps Hps. destruct (decide (k = id)) as [->|Hne].
    + rewrite lookup_insert_eq, Hps. eexists. split; [done|]. simpl. set_solver.
    + rewrite lookup_insert_ne by done. by exists ps.
  - rewrite RemoveParent_unlocked in Hc by done.
    case_decide as Hok; simplify_eq. split; simpl; [done|].
    intros k ps'. unfold del_edge. destruct (decide (k = id)) as [->|Hne].
    + rewrite lookup_alter_eq. intros (b & Hb & ->)%fmap_Some.
      exists b. split; [done|set_solver].
    + rewrite lookup_alter_ne by done. intros Hps. by exists ps'.
Qed.

Lemma mutate_releases rbac (c : Mutation K Role) e rbac' :
  mutate rbac c = Returns (e, rbac') → mutex rbac' = unlocked.
Proof.
  intros Hc. pose proof (mutate_inv _ _ _ _ Hc) as Hm.
  destruct c as [r|id|id parentIDs|id parent|id parent]; simpl in Hc.
  - rewrite Add_unlocked in Hc by done.
    destruct (roles rbac !! ID r); by simplify_eq.
  - rewrite Remove_unlocked in Hc by done.
    destruct (roles rbac !! id); by simplify_eq.
  - rewrite SetParents_unlocked in Hc by done. case_decide; by simplify_eq.
  - rewrite SetParent_unlocked in Hc by done. case_decide; by simplify_eq.
  - rewrite RemoveParent_unlocked in Hc by done. case_decide; by simplify_eq.
Qed.

(** X11: [Add], [SetParents] and [SetParent] never take a permission away:
    what a role inherited before a successful call it inherits after it.
    [Remove] and [RemoveParent] never hand one out: what a role inherits
    after a successful call it inherited before. *)
Theorem mutation_grants_monotone rbac (c : Mutation K Role) rbac' A p :
  mutate rbac c = Returns (None, rbac') →
  if grows c then inherits rbac A p → inherits rbac' A p
  else inherits rbac' A p → inherits rbac A p.
Proof.
  intros Hsub%mutate_subgraph. destruct (grows c); by apply subgraph_inherits.
Qed.

Lemma Add_no_edge rbac (r : Role) rbac' a b :
  graph_closed rbac → Add rbac r = Returns (None, rbac') →
  parent_edge rbac' a b → parent_edge rbac a b.
Proof.
  intros Hgc Hc. pose proof (locked_inv _ _ _ _ Hc) as Hm.
  rewrite Add_unlocked in Hc by done.
  destruct (roles rbac !! ID r) eqn:Hr; simplify_eq.
  intros (_ & _ & ps & Hps & Hin). simpl in Hps.
  destruct (Hgc a ps Hps) as [Ha Hmem].
  split_and!; [done|by apply Hmem|]. by exists ps.
Qed.

(** X12: only [SetParents] and [SetParent] can close a cycle: on an engine
    whose parent graph names only stored roles, a successful [Add], [Remove]
    or [RemoveParent] leaves the graph acyclic from every role from which it
    was acyclic. *)
Theorem only_SetParent_closes_cycles rbac (c : Mutation K Role) rbac' A :
  graph_closed rbac →
  mutate rbac c = Returns (None, rbac') →
  sets_parents c = false →
  acyclic_from rbac A → acyclic_from rbac' A.
Proof.
  intros Hgc Hc Hkind. apply acyclic_included. intros a b.
  destruct c as [r|id|id parentIDs|id parent|id parent]; try done.
  - by eapply Add_no_edge.
  - apply subgraph_edge. by apply (mutate_subgraph _ (CallRemove id)).
  - apply subgraph_edge. by apply (mutate_subgraph _ (CallRemoveParent id parent)).
Qed.

Lemma SetParent_new_edge rbac A B rbac' :
  SetParent rbac A B = Returns (None, rbac') → parent_edge rbac' A B.
Proof.
  intros Hc. pose proof (locked_inv _ _ _ _ Hc) as Hm.
  rewrite SetParent_unlocked in Hc by done.
  case_decide as Hok; simplify_eq. destruct Hok as [HA HB].
  split_and!; [done..|]. simpl. eexists. rewrite lookup_insert_eq.
  split; [done|set_solver].
Qed.

Lemma SetParent_edge_inv rbac A B rbac' a b :
  SetParent rbac A B = Returns (None, rbac') →
  parent_edge rbac' a b → parent_edge rbac a b ∨ (a = A ∧ b = B).
Proof.
  intros Hc. pose proof (locked_inv _ _ _ _ Hc) as Hm.
  rewrite SetParent_unlocked in Hc by done.
  case_decide as Hok; simplify_eq.
  intros (Ha & Hb & ps & Hps & Hin). simpl in *.
  destruct (decide (a = A)) as [->|Hne].
  - rewrite lookup_insert_eq in Hps. simplify_eq.
    apply elem_of_union in Hin as [Hin|Hin%elem_of_singleton]; [|by right].
    left. split_and!; [done..|].
    destruct (parents rbac !! A) as [ps|]; simpl in Hin; [by exists ps|].
    by apply not_elem_of_empty in Hin.
  - rewrite lookup_insert_ne in Hps by done. left. split_and!; [done..|]. by exists ps.
Qed.

(** A path of the graph with the edge from [A] to [B] added either avoids
    that edge or passes [A] and leaves [B] on old edges. *)
Lemma rtc_with_edge (R R' : relation K) A B u v :
  (∀ a b, R' a b → R a b ∨ (a = A ∧ b = B)) →
  rtc R' u v → rtc R u v ∨ (rtc R u A ∧ rtc R B v).
Proof.
  intros Hinv. induction 1 as [|u w v Huw _ IH]; [left; constructor|].
  destruct (Hinv _ _ Huw) as [Hold|[-> ->]].
  - destruct IH as [Hwv|[HwA HBv]].
    + left. by eapply rtc_l.
    + right. split; [by eapply rtc_l|done].
  - right. split; [constructor|]. by destruct IH as [?|[_ ?]].
Qed.

(** X13: after a successful [SetParent A B] on a graph without cycles, the
    graph is still without cycles exactly when [B] did not already reach
    [A] over parent edges; [SetParent] itself does not look. *)
Theorem SetParent_cycle_criterion rbac A B rbac' :
  SetParent rbac A B = Returns (None, rbac') →
  (∀ x, acyclic_from rbac x) →
  ((∀ x, acyclic_from rbac' x) ↔ ¬ rtc (parent_edge rbac) B A).
Proof.
  intros Hc Hac.
  pose proof (mutate_subgraph rbac (CallSetParent A B) rbac' Hc) as Hsub.
  simpl in Hsub. split.
  - intros Hac' Hreach. apply (Hac' A A); [constructor|].
    eapply tc_rtc_r; [apply tc_once; by eapply SetParent_new_edge|].
    eapply rtc_included; [|done]. intros a b. by apply subgraph_edge.
  - intros Hno x y _ Hcyc. apply tc_first in Hcyc as (z & Hyz & Hzy).
    apply (rtc_with_edge (parent_edge rbac) _ A B) in Hzy;
      [|intros a b; by apply SetParent_edge_inv].
    destruct (SetParent_edge_inv _ _ _ _ _ _ Hc Hyz) as [Hold|[-> ->]].
    + destruct Hzy as [Hzy|[HzA HBy]].
      * apply (Hac y y); [constructor|]. by eapply tc_rtc_r; [apply tc_once|].
      * apply Hno. eapply rtc_trans; [done|]. by eapply rtc_l.
    + apply Hno. by destruct Hzy as [?|[_ ?]].
Qed.

(** X14: [SetParent A B] has no cycle guard: for stored roles, with [B]
    already reaching [A] (or [B] being [A]), it succeeds, and afterwards
    [IsGranted] for [A] and any permission that nothing reachable grants
    overflows the stack at every depth. *)
Theorem SetParent_accepts_cycle {H} rbac A B (h : H) :
  mutex rbac = unlocked →
  is_Some (roles rbac !! A) →
  is_Some (roles rbac !! B) →
  rtc (parent_edge rbac) B A →
  ∃ rbac',
    SetParent rbac A B = Returns (None, rbac') ∧
    ¬ acyclic_from rbac' A ∧
    ∀ p depth, ¬ inherits rbac' A p →
      IsGranted depth rbac' A p None h = Overflows.
Proof.
  intros Hm HA HB Hreach.
  assert (∃ rbac', SetParent rbac A B = Returns (None, rbac')) as [rbac' Hc].
  { rewrite SetParent_unlocked by done. rewrite decide_True by done. eauto. }
  exists rbac'. split; [done|].
  pose proof (mutate_subgraph rbac (CallSetParent A B) _ Hc) as Hsub.
  simpl in Hsub.
  assert (¬ acyclic_from rbac' A) as Hcyc.
  { intros Hac. apply (Hac A); [constructor|].
    eapply tc_rtc_r; [apply tc_once; by eapply SetParent_new_edge|].
    eapply rtc_included; [|done]. intros a b. by apply subgraph_edge. }
  split; [done|]. intros p depth Hno.
  rewrite IsGranted_nil_readable.
  - by rewrite recursionCheck_overflows.
  - by rewrite (mutate_releases rbac (CallSetParent A B) _ _ Hc).
Qed.

(** ** Round trips *)

(** X15: on an engine whose parent graph names only stored roles, [Add] of
    a role under a fresh id followed by [Remove] of that id gives back the
    engine exactly as it was. *)
Theorem Add_Remove_roundtrip rbac (r : Role) :
  mutex rbac = unlocked →
  graph_closed rbac →
  roles rbac !! ID r = None →
  ∃ rbac1,
    Add rbac r = Returns (None, rbac1) ∧
    Remove rbac1 (ID r) = Returns (None, rbac).
Proof.
  intros Hm Hgc Hr. rewrite Add_unlocked by done. rewrite Hr.
  eexists. split; [done|]. rewrite Remove_unlocked by done. simpl.
  rewrite lookup_insert_eq. do 2 f_equal. apply RBAC_eq; simpl; [done|..].
  - by apply delete_insert_id.
  - apply map_eq. intros k. rewrite lookup_fmap.
    destruct (decide (k = ID r)) as [->|Hne].
    + rewrite lookup_delete_eq. by rewrite (closed_no_bucket _ _ Hgc Hr).
    + rewrite lookup_delete_ne by done.
      destruct (parents rbac !! k) as [ps|] eqn:Hps; simpl; [|done].
      f_equal. pose proof (closed_not_member _ _ _ _ Hgc Hr Hps). set_solver.
Qed.

(** X16: a stored role that is removed and added again under its id starts
    afresh: it has no parents, and no role has it as a parent. *)
Theorem Remove_then_Add_is_fresh rbac (r : Role) :
  mutex rbac = unlocked →
  is_Some (roles rbac !! ID r) →
  ∃ rbac1 rbac2,
    Remove rbac (ID r) = Returns (None, rbac1) ∧
    Add rbac1 r = Returns (None, rbac2) ∧
    roles rbac2 !! ID r = Some r ∧
    GetParents rbac2 (ID r) = Returns (([], None), rbac2) ∧
    ∀ A ps, parents rbac2 !! A = Some ps → ID r ∉ ps.
Proof.
  intros Hm [r0 Hr]. rewrite Remove_unlocked by done. rewrite Hr.
  eexists _, _. split; [done|]. rewrite Add_unlocked by done. simpl.
  rewrite lookup_delete_eq. split; [done|]. simpl. split_and!.
  - by rewrite lookup_insert_eq.
  - rewrite GetParents_unlocked by done. simpl.
    rewrite lookup_insert_eq, lookup_fmap, lookup_delete_eq. simpl.
    by rewrite range_set_empty.
  - intros A ps. rewrite lookup_fmap. intros (b & _ & ->)%fmap_Some. set_solver.
Qed.

(** X17: for an edge that is there, [RemoveParent] followed by [SetParent]
    of the same edge gives back the engine exactly as it was. *)
Theorem RemoveParent_SetParent_roundtrip rbac A B (ps : gset K) :
  mutex rbac = unlocked →
  is_Some (roles rbac !! A) →
  is_Some (roles rbac !! B) →
  parents rbac !! A = Some ps →
  B ∈ ps →
  ∃ rbac1,
    RemoveParent rbac A B = Returns (None, rbac1) ∧
    SetParent rbac1 A B = Returns (None, rbac).
Proof.
  intros Hm HA HB Hps Hin. rewrite RemoveParent_unlocked by done.
  rewrite decide_True by done. eexists. split; [done|].
  rewrite SetParent_unlocked by done. simpl. rewrite decide_True by done.
  do 2 f_equal. apply RBAC_eq; simpl; [done..|].
  unfold del_edge. rewrite lookup_alter_eq, Hps. simpl.
  rewrite insert_alter_eq. apply insert_id. rewrite Hps. f_equal.
  apply set_eq. intros x. destruct (decide (x = B)); set_solver.
Qed.

(** ** The lock, operation by operation *)

Lemma mutate_unlocked_returns rbac (c : Mutation K Role) :
  mutex rbac = unlocked → ∃ e rbac', mutate rbac c = Returns (e, rbac').
Proof.
  intros Hm. destruct c as [r|id|id parentIDs|id parent|id parent]; simpl.
  - rewrite Add_unlocked by done. destruct (roles rbac !! ID r); eauto.
  - rewrite Remove_unlocked by done. destruct (roles rbac !! id); eauto.
  - rewrite SetParents_unlocked by done. case_decide; eauto.
  - rewrite SetParent_unlocked by done. case_decide; eauto.
  - rewrite RemoveParent_unlocked by done. case_decide; eauto.
Qed.

(** X18: every structural mutation, and [GetParents], waits exactly when
    the lock is held by anybody, reader or writer, and a mutation that
    returns leaves the lock free; [Get] and [IsGranted] wait whenever a
    writer holds the lock and never wait on a lock nobody holds.  (Whether
    they wait while only readers hold it depends, in Go, on a writer being
    queued, which the lock state here does not record.) *)
Theorem lock_discipline rbac :
  (∀ c : Mutation K Role, mutate rbac c = Blocks ↔ mutex rbac ≠ unlocked) ∧
  (∀ id, GetParents rbac id = Blocks ↔ mutex rbac ≠ unlocked) ∧
  (∀ id, (writer (mutex rbac) = true → Get rbac id = Blocks) ∧
         (mutex rbac = unlocked → Get rbac id ≠ Blocks)) ∧
  (∀ (H : Type) depth id p (assert : option (AssertionFunc K Permission Role H)) h,
     (writer (mutex rbac) = true → IsGranted depth rbac id p assert h = Blocks) ∧
     (mutex rbac = unlocked → IsGranted depth rbac id p assert h ≠ Blocks)) ∧
  (∀ (c : Mutation K Role) e rbac',
     mutate rbac c = Returns (e, rbac') → mutex rbac' = unlocked).
Proof.
  split_and!.
  - intros c. split.
    + intros Hb Hm. destruct (mutate_unlocked_returns rbac c Hm) as (e & rbac' & Hc).
      congruence.
    + intros Hm. destruct c; simpl; by apply locked_blocks.
  - intros id. split.
    + intros Hb Hm. rewrite GetParents_unlocked in Hb by done.
      by destruct (roles rbac !! id).
    + intros Hm. by apply locked_blocks.
  - intros id. split.
    + intros Hw. by apply rlocked_blocks.
    + intros Hm. rewrite Get_readable by (by rewrite Hm).
      by destruct (roles rbac !! id).
  - intros H depth id p assert h. split.
    + intros Hw. by apply rlocked_blocks.
    + intros Hm. apply IsGranted_beside_readers. by rewrite Hm.
  - intros c e rbac'. apply mutate_releases.
Qed.

(** X10: [Get], [GetParents] and [IsGranted], whatever they return, return
    the engine they were given: roles, parent graph and lock as before. *)
Theorem reads_leave_engine rbac :
  (∀ id r rbac', Get rbac id = Returns (r, rbac') → rbac' = rbac) ∧
  (∀ id r rbac', GetParents rbac id = Returns (r, rbac') → rbac' = rbac) ∧
  (∀ (H : Type) depth id p (assert : option (AssertionFunc K Permission Role H)) h
     r rbac',
     IsGranted depth rbac id p assert h = Returns (r, rbac') → rbac' = rbac).
Proof.
  split_and!.
  - intros id r rbac'. apply rlocked_inv.
  - intros id r rbac' Hc. pose proof (locked_inv _ _ _ _ Hc) as Hm.
    rewrite GetParents_unlocked in Hc by done.
    destruct (roles rbac !! id); by simplify_eq.
  - intros H depth id p assert h r rbac'. apply rlocked_inv.
Qed.

End MoreProperties.

(** * Witnesses of the further properties *)

Lemma two_roles_closed : graph_closed two_roles.
Proof. intros k ps Hk. simpl in Hk. by rewrite lookup_empty in Hk. Qed.

Lemma engine_closed : graph_closed engine.
Proof.
  intros k ps Hk. simpl in Hk. apply lookup_singleton_Some in Hk as [<- <-].
  split; [by eexists|]. intros x ->%elem_of_singleton. by eexists.
Qed.

Lemma two_roles_no_edge a b : ¬ parent_edge two_roles a b.
Proof. intros (_ & _ & ps & Hps & _). simpl in Hps. by rewrite lookup_empty in Hps. Qed.

Lemma two_roles_acyclic x : acyclic_from two_roles x.
Proof. intros y _ (z & Hyz & _)%tc_first. by apply two_roles_no_edge in Hyz. Qed.

Lemma engine_editor_admin : parent_edge engine "editor" "admin".
Proof.
  split_and!; [by eexists..|]. exists {[ "admin" ]}. split; [done|set_solver].
Qed.

Lemma diamond_edge x y : parent_edge diamond x y → x = "a" ∧ y ≠ "a".
Proof.
  intros (_ & _ & ps & Hps & Hin). simpl in Hps.
  apply lookup_singleton_Some in Hps as [<- <-]. split; [done|].
  apply elem_of_union in Hin as [->%elem_of_singleton| ->%elem_of_singleton]; done.
Qed.

Lemma diamond_acyclic x : acyclic_from diamond x.
Proof.
  intros y _ (z & [-> Hz]%diamond_edge & Hzy)%tc_first.
  apply rtc_inv in Hzy as [?|(w & [? _]%diamond_edge & _)]; done.
Qed.

Lemma Add_then_Get_witness :
  ∃ rbac',
    Add two_roles viewer = Returns (None, rbac') ∧
    Get rbac' (ID viewer) = Returns ((Some viewer, [], None), rbac') ∧
    parents rbac' = parents two_roles ∧
    ∀ k, k ≠ ID viewer → roles rbac' !! k = roles two_roles !! k.
Proof.
  apply (Add_then_Get two_roles viewer).
  - reflexivity.
  - apply two_roles_closed.
  - vm_compute. reflexivity.
Defined.

Lemma Get_GetParents_agree_witness :
  ∃ l1 l2,
    Get engine "editor" = Returns ((Some editor, l1, None), engine) ∧
    GetParents engine "editor" = Returns ((l2, None), engine) ∧
    l1 ≡ₚ l2 ∧ NoDup l1 ∧
    ∀ x, x ∈ l1 ↔ x ∈ default ∅ (parents engine !! "editor").
Proof.
  apply (Get_GetParents_agree engine "editor" editor); reflexivity.
Defined.

Lemma mutation_repeated_witness :
  mutate engine (CallSetParent "editor" "admin") = Returns (None, engine) ∧
  mutate two_roles (CallAdd viewer) =
    Returns (None, set_roles (<[ "viewer" := viewer ]> (roles two_roles)) two_roles) ∧
  mutate (set_roles (<[ "viewer" := viewer ]> (roles two_roles)) two_roles)
         (CallAdd viewer)
    = Returns (Some ErrRoleExist,
               set_roles (<[ "viewer" := viewer ]> (roles two_roles)) two_roles).
Proof.
  assert (mutate two_roles (CallSetParent "editor" "admin") = Returns (None, engine))
    as Hset by (vm_compute; reflexivity).
  assert (mutate two_roles (CallAdd viewer) =
            Returns (None, set_roles (<[ "viewer" := viewer ]> (roles two_roles))
                             two_roles)) as Hadd by (vm_compute; reflexivity).
  split_and!.
  - exact (mutation_repeated two_roles (CallSetParent "editor" "admin") engine Hset).
  - exact Hadd.
  - exact (mutation_repeated two_roles (CallAdd viewer) _ Hadd).
Defined.

Lemma SetParents_is_SetParent_each_witness :
  SetParent two_roles "editor" "admin" = Returns (None, engine) ∧
  SetParents two_roles "editor" ["admin"; "editor"]
  = SetParents engine "editor" ["editor"].
Proof.
  assert (SetParent two_roles "editor" "admin" = Returns (None, engine)) as Hset
    by (vm_compute; reflexivity).
  split; [exact Hset|].
  apply (SetParents_is_SetParent_each two_roles "editor" "admin" ["editor"] engine Hset).
  repeat constructor. by eexists.
Defined.

Lemma SetParents_list_as_set_witness :
  SetParents two_roles "editor" ["admin"; "editor"; "admin"]
  = SetParents two_roles "editor" ["editor"; "admin"].
Proof.
  apply (SetParents_list_as_set two_roles "editor").
  apply set_eq. intros x. rewrite !elem_of_list_to_set, !elem_of_cons. tauto.
Defined.

Lemma IsGranted_without_descent_witness :
  IsGranted 0 engine "admin" "edit" None () = Returns ((Permit admin "edit", ()), engine) ∧
  IsGranted 0 looping "admin" "delete" None ()
  = Returns ((Permit admin "delete", ()), looping).
Proof.
  split.
  - apply (IsGranted_without_descent 0 engine "admin" "edit" admin ());
      [reflexivity..|]. right. vm_compute. reflexivity.
  - apply (IsGranted_without_descent 0 looping "admin" "delete" admin ());
      [reflexivity..|]. left. vm_compute. reflexivity.
Defined.

Lemma IsGranted_true_is_founded_witness :
  IsGranted 1 engine "editor" "delete" (Some allow) () = Returns ((true, ()), engine) ∧
  inherits engine "editor" "delete".
Proof.
  assert (IsGranted 1 engine "editor" "delete" (Some allow) ()
          = Returns ((true, ()), engine)) as Hret by (vm_compute; reflexivity).
  split; [exact Hret|].
  exact (IsGranted_true_is_founded 1 engine "editor" "delete" (Some allow) () () engine Hret).
Defined.

Lemma IsGranted_nil_answer_exact_witness :
  IsGranted 1 engine "admin" "edit" None () = Returns ((false, ()), engine) ∧
  (false = true ↔ inherits engine "admin" "edit") ∧
  (false = false → acyclic_from engine "admin").
Proof.
  assert (IsGranted 1 engine "admin" "edit" None () = Returns ((false, ()), engine))
    as Hret by (vm_compute; reflexivity).
  split; [exact Hret|].
  exact (IsGranted_nil_answer_exact 1 engine "admin" "edit" () () false engine Hret).
Defined.

Lemma IsGranted_order_independent_witness :
  IsGranted (RangeK:=elements_range) 2 diamond "a" "p" None ()
  = IsGranted (RangeK:=reversed_range) 2 diamond "a" "p" None ().
Proof.
  apply (IsGranted_order_independent elements_range reversed_range 2 diamond "a" "p").
  - apply diamond_acyclic.
  - vm_compute. lia.
Defined.

Lemma mutation_grants_monotone_witness :
  mutate two_roles (CallSetParent "editor" "admin") = Returns (None, engine) ∧
  (inherits two_roles "editor" "edit" → inherits engine "editor" "edit") ∧
  mutate engine (CallRemoveParent "editor" "admin") = Returns (None, unlinked) ∧
  (inherits unlinked "editor" "delete" → inherits engine "editor" "delete").
Proof.
  assert (mutate two_roles (CallSetParent "editor" "admin") = Returns (None, engine))
    as Hset by (vm_compute; reflexivity).
  assert (mutate engine (CallRemoveParent "editor" "admin") = Returns (None, unlinked))
    as Hdel by (vm_compute; reflexivity).
  split_and!.
  - exact Hset.
  - exact (mutation_grants_monotone two_roles _ engine "editor" "edit" Hset).
  - exact Hdel.
  - exact (mutation_grants_monotone engine _ unlinked "editor" "delete" Hdel).
Defined.

Lemma only_SetParent_closes_cycles_witness :
  mutate engine (CallRemoveParent "editor" "admin") = Returns (None, unlinked) ∧
  acyclic_from unlinked "editor".
Proof.
  assert (mutate engine (CallRemoveParent "editor" "admin") = Returns (None, unlinked))
    as Hdel by (vm_compute; reflexivity).
  split; [exact Hdel|].
  apply (only_SetParent_closes_cycles engine _ unlinked "editor" engine_closed Hdel).
  - reflexivity.
  - apply engine_acyclic.
Defined.

Lemma SetParent_cycle_criterion_witness :
  SetParent two_roles "editor" "admin" = Returns (None, engine) ∧
  ((∀ x, acyclic_from engine x)
   ↔ ¬ rtc (parent_edge two_roles) "admin" "editor").
Proof.
  assert (SetParent two_roles "editor" "admin" = Returns (None, engine)) as Hset
    by (vm_compute; reflexivity).
  split; [exact Hset|].
  exact (SetParent_cycle_criterion two_roles "editor" "admin" engine Hset
           two_roles_acyclic).
Defined.

Lemma SetParent_accepts_cycle_witness :
  ∃ rbac',
    SetParent engine "admin" "editor" = Returns (None, rbac') ∧
    ¬ acyclic_from rbac' "admin" ∧
    ∀ p depth, ¬ inherits rbac' "admin" p →
      IsGranted depth rbac' "admin" p None () = Overflows.
Proof.
  apply (SetParent_accepts_cycle engine "admin" "editor" ()).
  - reflexivity.
  - by eexists.
  - by eexists.
  - apply rtc_once, engine_editor_admin.
Defined.

Lemma Add_Remove_roundtrip_witness :
  ∃ rbac1,
    Add engine viewer = Returns (None, rbac1) ∧
    Remove rbac1 (ID viewer) = Returns (None, engine).
Proof.
  apply (Add_Remove_roundtrip engine viewer).
  - reflexivity.
  - apply engine_closed.
  - vm_compute. reflexivity.
Defined.

Lemma Remove_then_Add_is_fresh_witness :
  ∃ rbac1 rbac2,
    Remove engine (ID admin) = Returns (None, rbac1) ∧
    Add rbac1 admin = Returns (None, rbac2) ∧
    roles rbac2 !! ID admin = Some admin ∧
    GetParents rbac2 (ID admin) = Returns (([], None), rbac2) ∧
    ∀ A ps, parents rbac2 !! A = Some ps → ID admin ∉ ps.
Proof.
  apply (Remove_then_Add_is_fresh engine admin).
  - reflexivity.
  - by eexists.
Defined.

Lemma RemoveParent_SetParent_roundtrip_witness :
  ∃ rbac1,
    RemoveParent engine "editor" "admin" = Returns (None, rbac1) ∧
    SetParent rbac1 "editor" "admin" = Returns (None, engine).
Proof.
  apply (RemoveParent_SetParent_roundtrip engine "editor" "admin" {[ "admin" ]}).
  - reflexivity.
  - by eexists.
  - by eexists.
  - reflexivity.
  - set_solver.
Defined.
